(** * DifferentialTransmission (transmission_interface/differential_transmission.h)

    A shallow embedding of the differential transmission of ros_control and
    the properties of its six conversion maps.

    Modelling choices.
    - [double] is read as an exact rational ([Q], compared with [Qeq]); the
      statements below are identities of exact arithmetic, not of IEEE 754
      rounding.
    - A [double*] is a pointer ([nullptr] or an address); the caller's value
      slots live in a memory ([gmap addr Q]) that every conversion reads and
      writes through the pointers it is handed, statement by statement and in
      the order of the source, so that aliased slots behave as in the source.
    - [assert], a thrown [TransmissionException] and an access that C++ leaves
      undefined (null or dangling pointer, index past the end of a vector)
      end the computation with an [exn]. *)

From Stdlib Require Import QArith Qfield.
From stdpp Require Import base option list gmap strings.

(** ** Errors and the two monads of the embedding *)

Inductive exn : Type :=
  | TransmissionException (what : string)
  | AssertionFailure
  | UndefinedBehaviour.

Inductive result (A : Type) : Type :=
  | Ok (a : A)
  | Raise (e : exn).
Arguments Ok {A} a.
Arguments Raise {A} e.

#[global] Instance result_ret : MRet result := λ A a, Ok a.
#[global] Instance result_bind : MBind result := λ A B f r,
  match r with
  | Ok a => f a
  | Raise e => Raise e
  end.

Abbreviation addr := positive.

Inductive ptr : Set :=
  | nullptr
  | Ptr (a : addr).

#[global] Instance ptr_eq_dec : EqDecision ptr.
Proof. solve_decision. Defined.

Abbreviation mem := (gmap addr Q).

(** A computation that reads and writes the memory and may fail. *)
Definition M (A : Type) : Type := mem → result (A * mem).

#[global] Instance M_ret : MRet M := λ A a m, Ok (a, m).
#[global] Instance M_bind : MBind M := λ A B f c m,
  match c m with
  | Ok (a, m') => f a m'
  | Raise e => Raise e
  end.

Definition raise {A} (e : exn) : M A := λ _, Raise e.

(** [assert(b)] of <cassert>. *)
Definition assert (b : bool) : M unit :=
  if b then mret tt else raise AssertionFailure.

(** [v[i]] on a [std::vector]: defined inside the bounds only. *)
Definition at_ {A} (v : list A) (i : nat) : result A :=
  match v !! i with
  | Some x => Ok x
  | None => Raise UndefinedBehaviour
  end.

Definition idx {A} (v : list A) (i : nat) : M A := λ m,
  x ← at_ v i; Ok (x, m).

(** [v[i] = x] on a [std::vector]. *)
Definition assign {A} (v : list A) (i : nat) (x : A) : M (list A) := λ m,
  if decide (i < length v)%nat then Ok (<[i := x]> v, m)
  else Raise UndefinedBehaviour.

(** [*p] as an rvalue, and [*p = x]. *)
Definition load (p : ptr) : M Q := λ m,
  match p with
  | Ptr a => match m !! a with
             | Some x => Ok (x, m)
             | None => Raise UndefinedBehaviour
             end
  | nullptr => Raise UndefinedBehaviour
  end.

Definition store (p : ptr) (x : Q) : M unit := λ m,
  match p with
  | Ptr a => match m !! a with
             | Some _ => Ok (tt, <[a := x]> m)
             | None => Raise UndefinedBehaviour
             end
  | nullptr => Raise UndefinedBehaviour
  end.

(** [*v[i]] and [*v[i] = x] for a [std::vector<double*>]. *)
Definition rd (v : list ptr) (i : nat) : M Q := p ← idx v i; load p.
Definition wr (v : list ptr) (i : nat) (x : Q) : M unit := p ← idx v i; store p x.

(** A local [double] of automatic storage: a cell at an address that is not
    in use, released when its scope ends. *)
Definition alloca (x : Q) : M ptr := λ m,
  let a := fresh (dom m) in Ok (Ptr a, <[a := x]> m).

Definition release (p : ptr) : M unit := λ m,
  match p with
  | Ptr a => Ok (tt, delete a m)
  | nullptr => Ok (tt, m)
  end.

(** What the caller sees in a slot, and in a vector of slots. *)
Definition peek (m : mem) (p : ptr) : option Q :=
  match p with
  | Ptr a => m !! a
  | nullptr => None
  end.

Definition values (m : mem) (ps : list ptr) : option (list Q) :=
  mapM (peek m) ps.

(** ** The class *)

Record DifferentialTransmission : Type := {
  actuator_reduction_ : list Q;
  joint_reduction_ : list Q;
  joint_offset_ : list Q;
  joint_pos_vec_ : list ptr
}.

Definition size_error : exn :=
  TransmissionException
    "Reduction and offset vectors of a differential transmission must have size 2.".

Definition zero_error : exn :=
  TransmissionException "Transmission reduction ratios cannot be zero.".

(** The default value of the constructor's third argument. *)
Definition default_joint_offset : list Q := replicate 2 0%Q.

(** The constructor: the members are initialised, then the sizes and the
    reductions are checked. *)
Definition new (actuator_reduction joint_reduction joint_offset : list Q)
  : result DifferentialTransmission :=
  let this := {| actuator_reduction_ := actuator_reduction;
                 joint_reduction_ := joint_reduction;
                 joint_offset_ := joint_offset;
                 joint_pos_vec_ := replicate 2 nullptr |} in
  if negb (2 =? length actuator_reduction)%nat
     || negb (2 =? length (joint_reduction_ this))%nat
     || negb (2 =? length (joint_offset_ this))%nat
  then Raise size_error
  else
    a0 ← at_ actuator_reduction 0;
    a1 ← at_ actuator_reduction 1;
    j0 ← at_ (joint_reduction_ this) 0;
    j1 ← at_ (joint_reduction_ this) 1;
    if Qeq_bool 0 a0 || Qeq_bool 0 a1 || Qeq_bool 0 j0 || Qeq_bool 0 j1
    then Raise zero_error
    else Ok this.

Definition numActuators (this : DifferentialTransmission) : nat := 2.
Definition numJoints (this : DifferentialTransmission) : nat := 2.

Definition actuatorToJointEffort (this : DifferentialTransmission)
  (actuator_eff joint_eff : list ptr) : M unit :=
  assert ((2 =? length actuator_eff)%nat && (2 =? length joint_eff)%nat);;
  let ar := actuator_reduction_ this in
  let jr := joint_reduction_ this in
  (jr0 ← idx jr 0; a0 ← rd actuator_eff 0; ar0 ← idx ar 0;
   a1 ← rd actuator_eff 1; ar1 ← idx ar 1;
   wr joint_eff 0 (jr0 * (a0 * ar0 + a1 * ar1))%Q);;
  (jr1 ← idx jr 1; a0 ← rd actuator_eff 0; ar0 ← idx ar 0;
   a1 ← rd actuator_eff 1; ar1 ← idx ar 1;
   wr joint_eff 1 (jr1 * (a0 * ar0 - a1 * ar1))%Q).

Definition actuatorToJointVelocity (this : DifferentialTransmission)
  (actuator_vel joint_vel : list ptr) : M unit :=
  assert ((2 =? length actuator_vel)%nat && (2 =? length joint_vel)%nat);;
  let ar := actuator_reduction_ this in
  let jr := joint_reduction_ this in
  (a0 ← rd actuator_vel 0; ar0 ← idx ar 0;
   a1 ← rd actuator_vel 1; ar1 ← idx ar 1; jr0 ← idx jr 0;
   wr joint_vel 0 ((a0 / ar0 + a1 / ar1) / (2 * jr0))%Q);;
  (a0 ← rd actuator_vel 0; ar0 ← idx ar 0;
   a1 ← rd actuator_vel 1; ar1 ← idx ar 1; jr1 ← idx jr 1;
   wr joint_vel 1 ((a0 / ar0 - a1 / ar1) / (2 * jr1))%Q).

Definition actuatorToJointPosition (this : DifferentialTransmission)
  (actuator_pos joint_pos : list ptr) : M unit :=
  assert ((2 =? length actuator_pos)%nat && (2 =? length joint_pos)%nat);;
  actuatorToJointVelocity this actuator_pos joint_pos;;
  (x ← rd joint_pos 0; o ← idx (joint_offset_ this) 0; wr joint_pos 0 (x + o)%Q);;
  (x ← rd joint_pos 1; o ← idx (joint_offset_ this) 1; wr joint_pos 1 (x + o)%Q).

Definition jointToActuatorEffort (this : DifferentialTransmission)
  (joint_eff actuator_eff : list ptr) : M unit :=
  assert ((2 =? length actuator_eff)%nat && (2 =? length joint_eff)%nat);;
  let ar := actuator_reduction_ this in
  let jr := joint_reduction_ this in
  (j0 ← rd joint_eff 0; jr0 ← idx jr 0;
   j1 ← rd joint_eff 1; jr1 ← idx jr 1; ar0 ← idx ar 0;
   wr actuator_eff 0 ((j0 / jr0 + j1 / jr1) / (2 * ar0))%Q);;
  (j0 ← rd joint_eff 0; jr0 ← idx jr 0;
   j1 ← rd joint_eff 1; jr1 ← idx jr 1; ar1 ← idx ar 1;
   wr actuator_eff 1 ((j0 / jr0 - j1 / jr1) / (2 * ar1))%Q).

Definition jointToActuatorVelocity (this : DifferentialTransmission)
  (joint_vel actuator_vel : list ptr) : M unit :=
  assert ((2 =? length actuator_vel)%nat && (2 =? length joint_vel)%nat);;
  let ar := actuator_reduction_ this in
  let jr := joint_reduction_ this in
  (j0 ← rd joint_vel 0; jr0 ← idx jr 0;
   j1 ← rd joint_vel 1; jr1 ← idx jr 1; ar0 ← idx ar 0;
   wr actuator_vel 0 ((j0 * jr0 + j1 * jr1) * ar0)%Q);;
  (j0 ← rd joint_vel 0; jr0 ← idx jr 0;
   j1 ← rd joint_vel 1; jr1 ← idx jr 1; ar1 ← idx ar 1;
   wr actuator_vel 1 ((j0 * jr0 - j1 * jr1) * ar1)%Q).

(** The only conversion that changes the object: [joint_pos_vec_] is left
    pointing at the two locals, which are gone when the call returns. The
    updated object is returned next to the memory. *)
Definition jointToActuatorPosition (this : DifferentialTransmission)
  (joint_pos actuator_pos : list ptr)
  : M DifferentialTransmission :=
  assert ((2 =? length actuator_pos)%nat && (2 =? length joint_pos)%nat);;
  x0 ← rd joint_pos 0; o0 ← idx (joint_offset_ this) 0;
  x1 ← rd joint_pos 1; o1 ← idx (joint_offset_ this) 1;
  w0 ← alloca (x0 - o0)%Q;
  w1 ← alloca (x1 - o1)%Q;
  v ← assign (joint_pos_vec_ this) 0 w0;
  v ← assign v 1 w1;
  let this' := {| actuator_reduction_ := actuator_reduction_ this;
                  joint_reduction_ := joint_reduction_ this;
                  joint_offset_ := joint_offset_ this;
                  joint_pos_vec_ := v |} in
  jointToActuatorVelocity this' (joint_pos_vec_ this') actuator_pos;;
  release w1;; release w0;;
  mret this'.

(** The states an object goes through: the one the constructor returns, and
    those left by [jointToActuatorPosition], the only member function that
    writes to a member. *)
Inductive is_instance (ar jr jo : list Q) : DifferentialTransmission → Prop :=
  | constructed this :
      new ar jr jo = Ok this → is_instance ar jr jo this
  | used this joint_pos actuator_pos m this' m' :
      is_instance ar jr jo this →
      jointToActuatorPosition this joint_pos actuator_pos m = Ok (this', m') →
      is_instance ar jr jo this'.

(** The values of a vector of slots, up to equality of rationals. *)
Definition holds (m : mem) (ps : list ptr) (vs : list Q) : Prop :=
  match values m ps with
  | Some ws => Forall2 Qeq ws vs
  | None => False
  end.

#[global] Instance Qeq_rel_dec : RelDecision Qeq := Qeq_dec.

#[global] Instance holds_dec m ps vs : Decision (holds m ps vs).
Proof. unfold holds. destruct (values m ps); apply _. Defined.

(** The members as every conversion finds them. *)
Definition params (this : DifferentialTransmission)
  (ar0 ar1 jr0 jr1 o0 o1 : Q) : Prop :=
  actuator_reduction_ this = [ar0; ar1] ∧
  joint_reduction_ this = [jr0; jr1] ∧
  joint_offset_ this = [o0; o1] ∧
  length (joint_pos_vec_ this) = 2%nat.

(** The object that [new] returns when it returns one. *)
Definition built (ar jr jo : list Q) : DifferentialTransmission :=
  {| actuator_reduction_ := ar; joint_reduction_ := jr; joint_offset_ := jo;
     joint_pos_vec_ := [nullptr; nullptr] |}.

(** What makes the constructor throw: a vector whose size is not two, or a
    reduction that is zero. *)
Definition misconfigured (ar jr jo : list Q) : Prop :=
  length ar ≠ 2%nat ∨ length jr ≠ 2%nat ∨ length jo ≠ 2%nat ∨
  Exists (λ r, r == 0)%Q (ar ++ jr).

(** The reading in which both components are divided by twice the first
    actuator reduction, as §9 of the specification and the table of the class
    documentation word it. *)
Definition both_divided_by_first_reduction : Prop :=
  ∀ (ar0 ar1 jr0 jr1 off0 off1 : Q) (this : DifferentialTransmission)
    (m : mem) (joint_eff actuator_eff : list ptr) (je0 je1 y0 y1 : Q),
    is_instance [ar0; ar1] [jr0; jr1] [off0; off1] this →
    values m joint_eff = Some [je0; je1] →
    values m actuator_eff = Some [y0; y1] →
    NoDup actuator_eff → actuator_eff ## joint_eff →
    ∃ m', jointToActuatorEffort this joint_eff actuator_eff m = Ok (tt, m') ∧
      holds m' actuator_eff
        [((je0 / jr0 + je1 / jr1) / (2 * ar0))%Q;
         ((je0 / jr0 - je1 / jr1) / (2 * ar0))%Q].

(** ** Vocabulary for the outcome of a call *)

(** The call returns. *)
Definition returns {A} (r : result A) : Prop :=
  match r with
  | Ok _ => True
  | Raise _ => False
  end.

(** A vector of two slots that can be read and written. *)
Definition valid (m : mem) (ps : list ptr) : Prop :=
  ∃ x0 x1, values m ps = Some [x0; x1].

(** [m'] has the cells of [m], with the same contents except perhaps in the
    slots [outs]. *)
Definition modifies (outs : list ptr) (m m' : mem) : Prop :=
  dom m' = dom m ∧ ∀ a, Ptr a ∉ outs → m' !! a = m !! a.

(** Every call of [c] that returns changes the slots [outs] only. *)
Definition frames {A} (outs : list ptr) (c : M A) : Prop :=
  ∀ m a m', c m = Ok (a, m') → modifies outs m m'.

(** [c] fails in no other way than by an undefined access. *)
Definition undefined_only {A} (c : M A) : Prop :=
  ∀ m e, c m = Raise e → e = UndefinedBehaviour.

(** ** Fixtures for the worked examples: four cells at addresses 1 to 4 *)

Definition cells4 (a b c d : Q) : mem :=
  <[4%positive := d]> (<[3%positive := c]>
    (<[2%positive := b]> (<[1%positive := a]> ∅))).

Definition cells (a b : Q) : mem := cells4 a b 0 0.

Definition front : list ptr := [Ptr 1; Ptr 2].
Definition back : list ptr := [Ptr 3; Ptr 4].

(** ** Stepping through a conversion *)

Ltac exec :=
  unfold rd, wr, idx, load, store, assign, alloca, release, assert, raise, at_,
    mbind, M_bind, result_bind, mret, M_ret;
  repeat first
    [ progress cbn
    | rewrite lookup_insert_eq
    | rewrite lookup_insert_ne by done
    | match goal with
      | H : ?m !! ?a = Some _ |- context [?m !! ?a] => rewrite H
      end
    | match goal with
      | |- context [<[?a := _]> _ !! ?b] => destruct (decide (a = b)) as [->|]
      end ].

Lemma bind_ok {A B} (c : M A) (f : A → M B) (m m' : mem) (a : A) :
  c m = Ok (a, m') → (c ≫= f) m = f a m'.
Proof. unfold mbind, M_bind. by intros ->. Qed.

Lemma bind_raise {A B} (c : M A) (f : A → M B) (m : mem) (e : exn) :
  c m = Raise e → (c ≫= f) m = Raise e.
Proof. unfold mbind, M_bind. by intros ->. Qed.

Lemma values_pair (m : mem) (ps : list ptr) (x0 x1 : Q) :
  values m ps = Some [x0; x1] ↔
  ∃ a0 a1, ps = [Ptr a0; Ptr a1] ∧ m !! a0 = Some x0 ∧ m !! a1 = Some x1.
Proof.
  unfold values. split.
  - destruct ps as [|[|a0] [|[|a1] [|p ps]]]; cbn; try done;
      repeat match goal with
             | |- context [?m !! ?a] => destruct (m !! a) eqn:?; cbn
             | |- context [peek ?m ?p] => destruct (peek m p); cbn
             | |- context [mapM ?f ?l] => destruct (mapM f l); cbn
             end; try done.
    intros [= -> ->]. by exists a0, a1.
  - intros (a0 & a1 & -> & H0 & H1). cbn. by rewrite H0, H1.
Qed.

Lemma separate_pair (i0 i1 o0 o1 : addr) :
  [Ptr o0; Ptr o1] ## [Ptr i0; Ptr i1] →
  o0 ≠ i0 ∧ o0 ≠ i1 ∧ o1 ≠ i0 ∧ o1 ≠ i1.
Proof.
  intros H. repeat split; intros ->; set_solver.
Qed.

Lemma nodup_pair (o0 o1 : addr) : NoDup [Ptr o0; Ptr o1] → o0 ≠ o1.
Proof.
  intros H%NoDup_cons_1_1 ->. apply H, list_elem_of_In. cbn. eauto.
Qed.

(** ** What the constructor guarantees *)

Lemma new_inv (ar jr jo : list Q) (this : DifferentialTransmission) :
  new ar jr jo = Ok this →
  ∃ ar0 ar1 jr0 jr1 o0 o1,
    ar = [ar0; ar1] ∧ jr = [jr0; jr1] ∧ jo = [o0; o1] ∧
    (¬ ar0 == 0 ∧ ¬ ar1 == 0 ∧ ¬ jr0 == 0 ∧ ¬ jr1 == 0)%Q ∧
    this = {| actuator_reduction_ := ar; joint_reduction_ := jr;
              joint_offset_ := jo; joint_pos_vec_ := [nullptr; nullptr] |}.
Proof.
  unfold new.
  destruct ar as [|ar0 [|ar1 [|]]], jr as [|jr0 [|jr1 [|]]],
    jo as [|o0 [|o1 [|]]]; cbn; try done.
  destruct (Qeq_bool 0 ar0) eqn:E0; [done|].
  destruct (Qeq_bool 0 ar1) eqn:E1; [done|].
  destruct (Qeq_bool 0 jr0) eqn:E2; [done|].
  destruct (Qeq_bool 0 jr1) eqn:E3; [done|].
  cbn. intros [= <-]. exists ar0, ar1, jr0, jr1, o0, o1.
  apply Qeq_bool_neq in E0, E1, E2, E3.
  repeat split; try done; intros H; symmetry in H; done.
Qed.

Lemma jointToActuatorPosition_members this joint_pos actuator_pos m this' m' :
  jointToActuatorPosition this joint_pos actuator_pos m = Ok (this', m') →
  actuator_reduction_ this' = actuator_reduction_ this ∧
  joint_reduction_ this' = joint_reduction_ this ∧
  joint_offset_ this' = joint_offset_ this ∧
  length (joint_pos_vec_ this') = length (joint_pos_vec_ this).
Proof.
  unfold jointToActuatorPosition, assign, mbind, M_bind, mret, M_ret. intros H.
  repeat (case_match; try done). simplify_eq.
  cbn [actuator_reduction_ joint_reduction_ joint_offset_ joint_pos_vec_].
  by rewrite !length_insert.
Qed.

Lemma is_instance_inv (ar jr jo : list Q) (this : DifferentialTransmission) :
  is_instance ar jr jo this →
  ∃ ar0 ar1 jr0 jr1 o0 o1,
    ar = [ar0; ar1] ∧ jr = [jr0; jr1] ∧ jo = [o0; o1] ∧
    (¬ ar0 == 0 ∧ ¬ ar1 == 0 ∧ ¬ jr0 == 0 ∧ ¬ jr1 == 0)%Q ∧
    params this ar0 ar1 jr0 jr1 o0 o1.
Proof.
  induction 1 as [this Hnew|this ins outs m this' m' _ IH Hcall].
  - apply new_inv in Hnew
      as (ar0 & ar1 & jr0 & jr1 & o0 & o1 & -> & -> & -> & Hnz & ->).
    by exists ar0, ar1, jr0, jr1, o0, o1.
  - destruct IH as (ar0 & ar1 & jr0 & jr1 & o0 & o1 & -> & -> & -> & Hnz & Hp).
    apply jointToActuatorPosition_members in Hcall as (E1 & E2 & E3 & E4).
    exists ar0, ar1, jr0, jr1, o0, o1. unfold params in *.
    rewrite E1, E2, E3, E4. tauto.
Qed.

Lemma is_instance_params ar0 ar1 jr0 jr1 o0 o1 this :
  is_instance [ar0; ar1] [jr0; jr1] [o0; o1] this →
  params this ar0 ar1 jr0 jr1 o0 o1 ∧
  (¬ ar0 == 0 ∧ ¬ ar1 == 0 ∧ ¬ jr0 == 0 ∧ ¬ jr1 == 0)%Q.
Proof.
  intros (? & ? & ? & ? & ? & ? & E1 & E2 & E3 & Hnz & Hp)%is_instance_inv.
  by simplify_eq.
Qed.

(** ** The memory each conversion leaves

    Address-level descriptions of one call: slots [i0], [i1] are read, slots
    [o0], [o1] are written. The first slot written must not be one of the
    slots read, because the second statement reads both inputs again. *)

Section Run.
Context (this : DifferentialTransmission) (ar0 ar1 jr0 jr1 off0 off1 : Q).
Hypothesis Hp : params this ar0 ar1 jr0 jr1 off0 off1.
Context (m : mem) (i0 i1 o0 o1 : addr) (x0 x1 y0 y1 : Q).
Hypothesis Hi0 : m !! i0 = Some x0.
Hypothesis Hi1 : m !! i1 = Some x1.
Hypothesis Ho0 : m !! o0 = Some y0.
Hypothesis Ho1 : m !! o1 = Some y1.

Local Ltac start f :=
  destruct Hp as (Har & Hjr & Hjo & Hvec); unfold f; rewrite ?Har, ?Hjr, ?Hjo.

Lemma actuatorToJointEffort_run :
  o0 ≠ i0 → o0 ≠ i1 →
  actuatorToJointEffort this [Ptr i0; Ptr i1] [Ptr o0; Ptr o1] m =
    Ok (tt, <[o1 := (jr1 * (x0 * ar0 - x1 * ar1))%Q]>
              (<[o0 := (jr0 * (x0 * ar0 + x1 * ar1))%Q]> m)).
Proof. intros. start actuatorToJointEffort. by exec. Qed.

Lemma actuatorToJointVelocity_run :
  o0 ≠ i0 → o0 ≠ i1 →
  actuatorToJointVelocity this [Ptr i0; Ptr i1] [Ptr o0; Ptr o1] m =
    Ok (tt, <[o1 := ((x0 / ar0 - x1 / ar1) / (2 * jr1))%Q]>
              (<[o0 := ((x0 / ar0 + x1 / ar1) / (2 * jr0))%Q]> m)).
Proof. intros. start actuatorToJointVelocity. by exec. Qed.

Lemma jointToActuatorEffort_run :
  o0 ≠ i0 → o0 ≠ i1 →
  jointToActuatorEffort this [Ptr i0; Ptr i1] [Ptr o0; Ptr o1] m =
    Ok (tt, <[o1 := ((x0 / jr0 - x1 / jr1) / (2 * ar1))%Q]>
              (<[o0 := ((x0 / jr0 + x1 / jr1) / (2 * ar0))%Q]> m)).
Proof. intros. start jointToActuatorEffort. by exec. Qed.

Lemma jointToActuatorVelocity_run :
  o0 ≠ i0 → o0 ≠ i1 →
  jointToActuatorVelocity this [Ptr i0; Ptr i1] [Ptr o0; Ptr o1] m =
    Ok (tt, <[o1 := ((x0 * jr0 - x1 * jr1) * ar1)%Q]>
              (<[o0 := ((x0 * jr0 + x1 * jr1) * ar0)%Q]> m)).
Proof. intros. start jointToActuatorVelocity. by exec. Qed.

Lemma actuatorToJointPosition_run :
  o0 ≠ i0 → o0 ≠ i1 → o0 ≠ o1 →
  actuatorToJointPosition this [Ptr i0; Ptr i1] [Ptr o0; Ptr o1] m =
    Ok (tt, <[o1 := ((x0 / ar0 - x1 / ar1) / (2 * jr1) + off1)%Q]>
              (<[o0 := ((x0 / ar0 + x1 / ar1) / (2 * jr0) + off0)%Q]> m)).
Proof.
  intros. unfold actuatorToJointPosition.
  rewrite (bind_ok _ _ m m tt) by done.
  erewrite bind_ok by by apply actuatorToJointVelocity_run.
  destruct Hp as (Har & Hjr & Hjo & Hvec). rewrite Hjo. exec.
  apply (f_equal Ok), (f_equal (pair tt)). apply map_eq. intros a.
  destruct (decide (a = o1)), (decide (a = o0)); by simplify_map_eq.
Qed.
End Run.

(** [jointToActuatorPosition] reads its inputs once, into the two locals, so
    it needs no separation between the slots it reads and those it writes. *)
Section RunPosition.
Context (this : DifferentialTransmission) (ar0 ar1 jr0 jr1 off0 off1 : Q).
Hypothesis Hp : params this ar0 ar1 jr0 jr1 off0 off1.
Context (m : mem) (i0 i1 o0 o1 : addr) (x0 x1 y0 y1 : Q).
Hypothesis Hi0 : m !! i0 = Some x0.
Hypothesis Hi1 : m !! i1 = Some x1.
Hypothesis Ho0 : m !! o0 = Some y0.
Hypothesis Ho1 : m !! o1 = Some y1.

Let w0 : addr := fresh (dom m).
Let w1 : addr := fresh (dom (<[w0 := (x0 - off0)%Q]> m)).

Lemma jointToActuatorPosition_run :
  jointToActuatorPosition this [Ptr i0; Ptr i1] [Ptr o0; Ptr o1] m =
    Ok ({| actuator_reduction_ := actuator_reduction_ this;
           joint_reduction_ := joint_reduction_ this;
           joint_offset_ := joint_offset_ this;
           joint_pos_vec_ := [Ptr w0; Ptr w1] |},
        <[o1 := (((x0 - off0) * jr0 - (x1 - off1) * jr1) * ar1)%Q]>
          (<[o0 := (((x0 - off0) * jr0 + (x1 - off1) * jr1) * ar0)%Q]> m)).
Proof.
  assert (Hw0 : m !! w0 = None) by apply not_elem_of_dom, is_fresh.
  assert (Hw1 : <[w0 := (x0 - off0)%Q]> m !! w1 = None)
    by apply not_elem_of_dom, is_fresh.
  apply lookup_insert_None in Hw1 as [Hw1 Hw01].
  assert (w0 ≠ o0 ∧ w0 ≠ o1 ∧ w1 ≠ o0 ∧ w1 ≠ o1) as (? & ? & ? & ?)
    by (repeat split; congruence).
  destruct Hp as (Har & Hjr & Hjo & Hvec).
  destruct (joint_pos_vec_ this) as [|v0 [|v1 [|]]] eqn:Ev; try done.
  unfold jointToActuatorPosition. rewrite Hjo, Ev.
  do 5 (erewrite bind_ok by (exec; reflexivity)).
  erewrite bind_ok by reflexivity. fold w0.
  erewrite bind_ok by reflexivity. fold w1.
  do 2 (erewrite bind_ok by reflexivity).
  cbn [joint_pos_vec_ insert list_insert].
  erewrite bind_ok.
  2:{ eapply jointToActuatorVelocity_run with (y0 := y0) (y1 := y1);
        [done|by simplify_map_eq..]. }
  exec. apply (f_equal Ok), f_equal, map_eq. intros a.
  destruct (decide (a = o1)), (decide (a = o0)),
    (decide (a = w1)), (decide (a = w0)); by simplify_map_eq.
Qed.
End RunPosition.

(** ** One call, seen through the caller's slot vectors

    [outs] are two distinct slots, none of which is among [ins]. *)

Lemma values_frame (m m' : mem) (ps : list ptr) :
  (∀ p, p ∈ ps → peek m' p = peek m p) → values m' ps = values m ps.
Proof.
  unfold values. induction ps as [|p ps IH]; intros H; [done|].
  cbn. rewrite H, IH; [done| |]; set_solver.
Qed.

Ltac slots :=
  repeat match goal with
  | H : values _ _ = Some [_; _] |- _ =>
      apply values_pair in H as (? & ? & ? & ? & ?); simplify_eq
  | H : [Ptr _; Ptr _] ## [Ptr _; Ptr _] |- _ =>
      apply separate_pair in H as (? & ? & ? & ?)
  | H : NoDup [Ptr _; Ptr _] |- _ => apply nodup_pair in H
  end.

Ltac written :=
  apply values_pair; eexists _, _; split; [reflexivity|]; by simplify_map_eq.

Ltac frame :=
  intros [|?] ?; cbn; [done|];
  rewrite !lookup_insert_ne; [done|intros ->; set_solver..].

Section Spec.
Context (this : DifferentialTransmission) (ar0 ar1 jr0 jr1 off0 off1 : Q).
Hypothesis Hp : params this ar0 ar1 jr0 jr1 off0 off1.
Context (m : mem) (ins outs : list ptr) (x0 x1 y0 y1 : Q).
Hypothesis Hins : values m ins = Some [x0; x1].
Hypothesis Houts : values m outs = Some [y0; y1].

Lemma actuatorToJointEffort_spec :
  NoDup outs → outs ## ins →
  ∃ m', actuatorToJointEffort this ins outs m = Ok (tt, m') ∧
    values m' outs = Some [(jr0 * (x0 * ar0 + x1 * ar1))%Q;
                           (jr1 * (x0 * ar0 - x1 * ar1))%Q] ∧
    ∀ p, p ∉ outs → peek m' p = peek m p.
Proof.
  intros Hnd Hsep. slots. eexists. split; [|split].
  - by eapply actuatorToJointEffort_run.
  - written.
  - frame.
Qed.

Lemma actuatorToJointVelocity_spec :
  NoDup outs → outs ## ins →
  ∃ m', actuatorToJointVelocity this ins outs m = Ok (tt, m') ∧
    values m' outs = Some [((x0 / ar0 + x1 / ar1) / (2 * jr0))%Q;
                           ((x0 / ar0 - x1 / ar1) / (2 * jr1))%Q] ∧
    ∀ p, p ∉ outs → peek m' p = peek m p.
Proof.
  intros Hnd Hsep. slots. eexists. split; [|split].
  - by eapply actuatorToJointVelocity_run.
  - written.
  - frame.
Qed.

Lemma actuatorToJointPosition_spec :
  NoDup outs → outs ## ins →
  ∃ m', actuatorToJointPosition this ins outs m = Ok (tt, m') ∧
    values m' outs = Some [((x0 / ar0 + x1 / ar1) / (2 * jr0) + off0)%Q;
                           ((x0 / ar0 - x1 / ar1) / (2 * jr1) + off1)%Q] ∧
    ∀ p, p ∉ outs → peek m' p = peek m p.
Proof.
  intros Hnd Hsep. slots. eexists. split; [|split].
  - by eapply actuatorToJointPosition_run.
  - written.
  - frame.
Qed.

Lemma jointToActuatorEffort_spec :
  NoDup outs → outs ## ins →
  ∃ m', jointToActuatorEffort this ins outs m = Ok (tt, m') ∧
    values m' outs = Some [((x0 / jr0 + x1 / jr1) / (2 * ar0))%Q;
                           ((x0 / jr0 - x1 / jr1) / (2 * ar1))%Q] ∧
    ∀ p, p ∉ outs → peek m' p = peek m p.
Proof.
  intros Hnd Hsep. slots. eexists. split; [|split].
  - by eapply jointToActuatorEffort_run.
  - written.
  - frame.
Qed.

Lemma jointToActuatorVelocity_spec :
  NoDup outs → outs ## ins →
  ∃ m', jointToActuatorVelocity this ins outs m = Ok (tt, m') ∧
    values m' outs = Some [((x0 * jr0 + x1 * jr1) * ar0)%Q;
                           ((x0 * jr0 - x1 * jr1) * ar1)%Q] ∧
    ∀ p, p ∉ outs → peek m' p = peek m p.
Proof.
  intros Hnd Hsep. slots. eexists. split; [|split].
  - by eapply jointToActuatorVelocity_run.
  - written.
  - frame.
Qed.

Lemma jointToActuatorPosition_spec :
  NoDup outs →
  ∃ this' m', jointToActuatorPosition this ins outs m = Ok (this', m') ∧
    values m' outs = Some [(((x0 - off0) * jr0 + (x1 - off1) * jr1) * ar0)%Q;
                           (((x0 - off0) * jr0 - (x1 - off1) * jr1) * ar1)%Q] ∧
    ∀ p, p ∉ outs → peek m' p = peek m p.
Proof.
  intros Hnd. slots. eexists _, _. split; [|split].
  - by eapply jointToActuatorPosition_run.
  - written.
  - frame.
Qed.
End Spec.

Lemma holds_pair (m : mem) (ps : list ptr) (a b : Q) :
  holds m ps [a; b] ↔
  ∃ x0 x1, values m ps = Some [x0; x1] ∧ (x0 == a ∧ x1 == b)%Q.
Proof.
  unfold holds. split.
  - destruct (values m ps) as [ws|]; [|done]. intros H.
    apply Forall2_cons_inv_r in H as (x0 & ws' & H0 & H & ->).
    apply Forall2_cons_inv_r in H as (x1 & ws'' & H1 & H & ->).
    apply Forall2_nil_inv_r in H as ->. by exists x0, x1.
  - intros (x0 & x1 & -> & H0 & H1). by repeat constructor.
Qed.

Lemma back_nodup : NoDup back.
Proof. by apply (bool_decide_unpack _). Qed.

Lemma back_front : back ## front.
Proof.
  intros p Hb%list_elem_of_In Hf%list_elem_of_In. cbn in *.
  intuition congruence.
Qed.

Lemma front_nodup : NoDup front.
Proof. by apply (bool_decide_unpack _). Qed.

Lemma front_back : front ## back.
Proof. intros p Hf Hb. exact (back_front p Hb Hf). Qed.

(** ** Effort, joint to actuator *)

(** C1. For every instance, [jointToActuatorEffort] called on joint efforts
    [je0], [je1] leaves [(je0/jr0 + je1/jr1) / (2*ar0)] in the first actuator
    slot and [(je0/jr0 - je1/jr1) / (2*ar1)] in the second: the second
    component is divided by twice the second actuator reduction. *)
Theorem jointToActuatorEffort_closed_form
  (ar0 ar1 jr0 jr1 off0 off1 : Q) (this : DifferentialTransmission)
  (m : mem) (joint_eff actuator_eff : list ptr) (je0 je1 y0 y1 : Q) :
  is_instance [ar0; ar1] [jr0; jr1] [off0; off1] this →
  values m joint_eff = Some [je0; je1] →
  values m actuator_eff = Some [y0; y1] →
  NoDup actuator_eff → actuator_eff ## joint_eff →
  ∃ m', jointToActuatorEffort this joint_eff actuator_eff m = Ok (tt, m') ∧
    values m' actuator_eff =
      Some [((je0 / jr0 + je1 / jr1) / (2 * ar0))%Q;
            ((je0 / jr0 - je1 / jr1) / (2 * ar1))%Q].
Proof.
  intros [Hp _]%is_instance_params Hin Hout Hnd Hsep.
  destruct (jointToActuatorEffort_spec _ _ _ _ _ _ _ Hp _ _ _ _ _ _ _
              Hin Hout Hnd Hsep) as (m' & ? & ? & _).
  by exists m'.
Qed.

Lemma jointToActuatorEffort_closed_form_witness :
  ∃ m',
    jointToActuatorEffort (built [1; 2]%Q [1; 1]%Q [0; 0]%Q)
      front back (cells 3 1) = Ok (tt, m') ∧
    values m' back = Some [((3 / 1 + 1 / 1) / (2 * 1))%Q;
                           ((3 / 1 - 1 / 1) / (2 * 2))%Q].
Proof.
  apply (jointToActuatorEffort_closed_form 1 2 1 1 0 0 _ (cells 3 1)
           front back 3 1 0 0).
  - apply constructed. reflexivity.
  - reflexivity.
  - reflexivity.
  - exact back_nodup.
  - exact back_front.
Defined.

(** The separation of the slots is needed: converted in place, the second
    component is computed from the first slot as the first statement left
    it. *)
Example jointToActuatorEffort_in_place :
  ∃ m',
    jointToActuatorEffort (built [1; 2]%Q [1; 1]%Q [0; 0]%Q)
      front front (cells 3 1) = Ok (tt, m') ∧
    values m' front = Some [((3 / 1 + 1 / 1) / (2 * 1))%Q;
                            (((3 / 1 + 1 / 1) / (2 * 1) / 1 - 1 / 1) / (2 * 2))%Q].
Proof. eexists. split; [vm_compute|]; reflexivity. Qed.

(** With actuator reductions [1] and [2], joint reductions [1] and joint
    efforts [3], [1], the second actuator effort is [(3 - 1) / (2*2)], not
    [(3 - 1) / (2*1)]. *)
Lemma both_divided_by_first_reduction_fails :
  ¬ both_divided_by_first_reduction.
Proof.
  intros H.
  destruct (H 1 2 1 1 0 0 (built [1; 2] [1; 1] [0; 0])%Q (cells 3 1)
              front back 3 1 0 0)%Q as (m' & Hrun & Hv).
  - by apply constructed.
  - done.
  - done.
  - exact back_nodup.
  - exact back_front.
  - vm_compute in Hrun. injection Hrun as <-.
    apply holds_pair in Hv as (v0 & v1 & Hv & _ & E1).
    vm_compute in Hv. injection Hv as <- <-. vm_compute in E1. done.
Qed.

(** C2, as the source has it. The first component of [jointToActuatorEffort]
    has denominator [2*ar0] and the second has denominator [2*ar1]: the
    values written, multiplied by these, give the sum and the difference of
    the reduced joint efforts. *)
Theorem jointToActuatorEffort_denominators
  (ar0 ar1 jr0 jr1 off0 off1 : Q) (this : DifferentialTransmission)
  (m : mem) (joint_eff actuator_eff : list ptr) (je0 je1 y0 y1 : Q) :
  is_instance [ar0; ar1] [jr0; jr1] [off0; off1] this →
  values m joint_eff = Some [je0; je1] →
  values m actuator_eff = Some [y0; y1] →
  NoDup actuator_eff → actuator_eff ## joint_eff →
  ∃ m' ae0 ae1,
    jointToActuatorEffort this joint_eff actuator_eff m = Ok (tt, m') ∧
    values m' actuator_eff = Some [ae0; ae1] ∧
    (ae0 * (2 * ar0) == je0 / jr0 + je1 / jr1)%Q ∧
    (ae1 * (2 * ar1) == je0 / jr0 - je1 / jr1)%Q.
Proof.
  intros [Hp (Ha0 & Ha1 & Hj0 & Hj1)]%is_instance_params Hin Hout Hnd Hsep.
  destruct (jointToActuatorEffort_spec _ _ _ _ _ _ _ Hp _ _ _ _ _ _ _
              Hin Hout Hnd Hsep) as (m' & Hrun & Hv & _).
  eexists m', _, _. repeat split; [done..| |]; by field.
Qed.

Lemma jointToActuatorEffort_denominators_witness :
  ∃ m' ae0 ae1,
    jointToActuatorEffort (built [1; 2]%Q [1; 1]%Q [0; 0]%Q)
      front back (cells 3 1) = Ok (tt, m') ∧
    values m' back = Some [ae0; ae1] ∧
    (ae0 * (2 * 1) == 3 / 1 + 1 / 1)%Q ∧
    (ae1 * (2 * 2) == 3 / 1 - 1 / 1)%Q.
Proof.
  apply (jointToActuatorEffort_denominators 1 2 1 1 0 0 _ (cells 3 1)
           front back 3 1 0 0).
  - apply constructed. reflexivity.
  - reflexivity.
  - reflexivity.
  - exact back_nodup.
  - exact back_front.
Defined.

(** ** Round trips

    The actuator values are read from [act], converted into [jnt], and
    converted back into [act'], which may be [act] itself or two other
    slots. *)

Section RoundTrip.
Context (ar0 ar1 jr0 jr1 off0 off1 : Q) (this : DifferentialTransmission).
Context (m : mem) (act jnt act' : list ptr) (x0 x1 y0 y1 z0 z1 : Q).

(** C3. Efforts converted to joint space by [actuatorToJointEffort] and back
    by [jointToActuatorEffort] are the efforts one started from. *)
Theorem effort_round_trip :
  is_instance [ar0; ar1] [jr0; jr1] [off0; off1] this →
  values m act = Some [x0; x1] →
  values m jnt = Some [y0; y1] →
  values m act' = Some [z0; z1] →
  NoDup jnt → jnt ## act → NoDup act' → act' ## jnt →
  ∃ m1 m2,
    actuatorToJointEffort this act jnt m = Ok (tt, m1) ∧
    jointToActuatorEffort this jnt act' m1 = Ok (tt, m2) ∧
    holds m2 act' [x0; x1].
Proof.
  intros [Hp (Ha0 & Ha1 & Hj0 & Hj1)]%is_instance_params
    Hact Hjnt Hact' Hnd Hsep Hnd' Hsep'.
  destruct (actuatorToJointEffort_spec _ _ _ _ _ _ _ Hp _ _ _ _ _ _ _
              Hact Hjnt Hnd Hsep) as (m1 & Hrun1 & Hv1 & Hfr1).
  assert (Hact1 : values m1 act' = Some [z0; z1]).
  { rewrite <- Hact'. apply values_frame. intros p Hin. apply Hfr1.
    intros Hin'. exact (Hsep' p Hin Hin'). }
  destruct (jointToActuatorEffort_spec _ _ _ _ _ _ _ Hp _ _ _ _ _ _ _
              Hv1 Hact1 Hnd' Hsep') as (m2 & Hrun2 & Hv2 & _).
  exists m1, m2. repeat split; [done..|].
  apply holds_pair. eexists _, _. split; [done|]. split; by field.
Qed.

(** C4. Velocities converted to joint space by [actuatorToJointVelocity] and
    back by [jointToActuatorVelocity] are the velocities one started from. *)
Theorem velocity_round_trip :
  is_instance [ar0; ar1] [jr0; jr1] [off0; off1] this →
  values m act = Some [x0; x1] →
  values m jnt = Some [y0; y1] →
  values m act' = Some [z0; z1] →
  NoDup jnt → jnt ## act → NoDup act' → act' ## jnt →
  ∃ m1 m2,
    actuatorToJointVelocity this act jnt m = Ok (tt, m1) ∧
    jointToActuatorVelocity this jnt act' m1 = Ok (tt, m2) ∧
    holds m2 act' [x0; x1].
Proof.
  intros [Hp (Ha0 & Ha1 & Hj0 & Hj1)]%is_instance_params
    Hact Hjnt Hact' Hnd Hsep Hnd' Hsep'.
  destruct (actuatorToJointVelocity_spec _ _ _ _ _ _ _ Hp _ _ _ _ _ _ _
              Hact Hjnt Hnd Hsep) as (m1 & Hrun1 & Hv1 & Hfr1).
  assert (Hact1 : values m1 act' = Some [z0; z1]).
  { rewrite <- Hact'. apply values_frame. intros p Hin. apply Hfr1.
    intros Hin'. exact (Hsep' p Hin Hin'). }
  destruct (jointToActuatorVelocity_spec _ _ _ _ _ _ _ Hp _ _ _ _ _ _ _
              Hv1 Hact1 Hnd' Hsep') as (m2 & Hrun2 & Hv2 & _).
  exists m1, m2. repeat split; [done..|].
  apply holds_pair. eexists _, _. split; [done|]. split; by field.
Qed.

(** C5. Positions converted to joint space by [actuatorToJointPosition] and
    back by [jointToActuatorPosition] are the positions one started from,
    whatever the joint offsets: what the first adds, the second removes. *)
Theorem position_round_trip :
  is_instance [ar0; ar1] [jr0; jr1] [off0; off1] this →
  values m act = Some [x0; x1] →
  values m jnt = Some [y0; y1] →
  values m act' = Some [z0; z1] →
  NoDup jnt → jnt ## act → NoDup act' → act' ## jnt →
  ∃ m1 this' m2,
    actuatorToJointPosition this act jnt m = Ok (tt, m1) ∧
    jointToActuatorPosition this jnt act' m1 = Ok (this', m2) ∧
    holds m2 act' [x0; x1].
Proof.
  intros [Hp (Ha0 & Ha1 & Hj0 & Hj1)]%is_instance_params
    Hact Hjnt Hact' Hnd Hsep Hnd' Hsep'.
  destruct (actuatorToJointPosition_spec _ _ _ _ _ _ _ Hp _ _ _ _ _ _ _
              Hact Hjnt Hnd Hsep) as (m1 & Hrun1 & Hv1 & Hfr1).
  assert (Hact1 : values m1 act' = Some [z0; z1]).
  { rewrite <- Hact'. apply values_frame. intros p Hin. apply Hfr1.
    intros Hin'. exact (Hsep' p Hin Hin'). }
  destruct (jointToActuatorPosition_spec _ _ _ _ _ _ _ Hp _ _ _ _ _ _ _
              Hv1 Hact1 Hnd') as (this' & m2 & Hrun2 & Hv2 & _).
  exists m1, this', m2. repeat split; [done..|].
  apply holds_pair. eexists _, _. split; [done|]. split; by field.
Qed.
End RoundTrip.

Lemma effort_round_trip_witness :
  ∃ m1 m2,
    actuatorToJointEffort (built [2; -3] [5; 7] [1; -1])%Q
      front back (cells 4 9) = Ok (tt, m1) ∧
    jointToActuatorEffort (built [2; -3] [5; 7] [1; -1])%Q
      back front m1 = Ok (tt, m2) ∧
    holds m2 front [4; 9]%Q.
Proof.
  apply (effort_round_trip 2 (-3) 5 7 1 (-1) _ (cells 4 9) front back front
           4 9 0 0 4 9).
  - apply constructed. reflexivity.
  - reflexivity.
  - reflexivity.
  - reflexivity.
  - exact back_nodup.
  - exact back_front.
  - exact front_nodup.
  - exact front_back.
Defined.

Lemma velocity_round_trip_witness :
  ∃ m1 m2,
    actuatorToJointVelocity (built [2; -3] [5; 7] [1; -1])%Q
      front back (cells 4 9) = Ok (tt, m1) ∧
    jointToActuatorVelocity (built [2; -3] [5; 7] [1; -1])%Q
      back front m1 = Ok (tt, m2) ∧
    holds m2 front [4; 9]%Q.
Proof.
  apply (velocity_round_trip 2 (-3) 5 7 1 (-1) _ (cells 4 9) front back front
           4 9 0 0 4 9).
  - apply constructed. reflexivity.
  - reflexivity.
  - reflexivity.
  - reflexivity.
  - exact back_nodup.
  - exact back_front.
  - exact front_nodup.
  - exact front_back.
Defined.

Lemma position_round_trip_witness :
  ∃ m1 this' m2,
    actuatorToJointPosition (built [2; -3] [5; 7] [1; -1])%Q
      front back (cells 4 9) = Ok (tt, m1) ∧
    jointToActuatorPosition (built [2; -3] [5; 7] [1; -1])%Q
      back front m1 = Ok (this', m2) ∧
    holds m2 front [4; 9]%Q.
Proof.
  apply (position_round_trip 2 (-3) 5 7 1 (-1) _ (cells 4 9) front back front
           4 9 0 0 4 9).
  - apply constructed. reflexivity.
  - reflexivity.
  - reflexivity.
  - reflexivity.
  - exact back_nodup.
  - exact back_front.
  - exact front_nodup.
  - exact front_back.
Defined.

(** ** The position maps are the velocity maps, shifted by the offsets *)

Lemma assert_bind {B} (b : bool) (f : unit → M B) (m : mem) :
  (assert b ≫= f) m = if b then f tt m else Raise AssertionFailure.
Proof. by destruct b. Qed.

Lemma actuatorToJointVelocity_arity this act jnt m :
  ((2 =? length act)%nat && (2 =? length jnt)%nat = false) →
  actuatorToJointVelocity this act jnt m = Raise AssertionFailure.
Proof.
  intros E. unfold actuatorToJointVelocity. by rewrite assert_bind, E.
Qed.

(** C6. [actuatorToJointPosition] is [actuatorToJointVelocity] on the same
    slots followed by the addition of [joint_offset_] to each joint slot: it
    fails where the velocity map fails, and where the velocity map leaves
    [v0], [v1] it leaves [v0 + off0], [v1 + off1] and the same memory
    elsewhere. [jointToActuatorPosition] writes what
    [jointToActuatorVelocity] writes when it is given slots that hold the
    joint positions with [joint_offset_] subtracted. *)
Theorem position_maps_follow_velocity_maps
  (ar0 ar1 jr0 jr1 off0 off1 : Q) (this : DifferentialTransmission) :
  is_instance [ar0; ar1] [jr0; jr1] [off0; off1] this →
  (∀ (m mv : mem) (act jnt : list ptr) (v0 v1 : Q),
     actuatorToJointVelocity this act jnt m = Ok (tt, mv) →
     values mv jnt = Some [v0; v1] →
     NoDup jnt →
     ∃ mp, actuatorToJointPosition this act jnt m = Ok (tt, mp) ∧
       values mp jnt = Some [(v0 + off0)%Q; (v1 + off1)%Q] ∧
       ∀ p, p ∉ jnt → peek mp p = peek mv p) ∧
  (∀ (m : mem) (act jnt : list ptr) (e : exn),
     actuatorToJointVelocity this act jnt m = Raise e →
     actuatorToJointPosition this act jnt m = Raise e) ∧
  (∀ (m ms : mem) (jnt act tmp : list ptr) (x0 x1 y0 y1 z0 z1 : Q),
     values m jnt = Some [x0; x1] →
     values m act = Some [y0; y1] →
     values ms tmp = Some [(x0 - off0)%Q; (x1 - off1)%Q] →
     values ms act = Some [z0; z1] →
     act ## tmp →
     ∃ this' mp mv,
       jointToActuatorPosition this jnt act m = Ok (this', mp) ∧
       jointToActuatorVelocity this tmp act ms = Ok (tt, mv) ∧
       values mp act = values mv act).
Proof.
  intros [Hp _]%is_instance_params. split; [|split].
  - intros m mv act jnt v0 v1 Hvel Hv Hnd.
    unfold actuatorToJointPosition. rewrite assert_bind.
    destruct (_ && _) eqn:E;
      [|by rewrite actuatorToJointVelocity_arity in Hvel].
    rewrite (bind_ok _ _ _ _ _ Hvel).
    destruct Hp as (_ & _ & Hjo & _). rewrite Hjo. slots.
    eexists. split; [|split].
    + by exec.
    + written.
    + frame.
  - intros m act jnt e Hvel.
    unfold actuatorToJointPosition. rewrite assert_bind.
    destruct (_ && _) eqn:E.
    + by rewrite (bind_raise _ _ _ _ Hvel).
    + rewrite actuatorToJointVelocity_arity in Hvel by done. congruence.
  - intros m ms jnt act tmp x0 x1 y0 y1 z0 z1 Hj Ha Ht Hsa Hsep. slots.
    eexists _, _, _. split; [|split].
    + by eapply jointToActuatorPosition_run.
    + by eapply jointToActuatorVelocity_run.
    + cbn. match goal with |- context [<[?a := _]> (<[?b := _]> _)] =>
        destruct (decide (a = b)) end; by simplify_map_eq.
Qed.

Lemma position_maps_follow_velocity_maps_witness :
  (∃ mp,
     actuatorToJointPosition (built [2; 2] [1; 1] [1; -1])%Q
       front back (cells 2 2) = Ok (tt, mp) ∧
     values mp back = Some [((2 / 2 + 2 / 2) / (2 * 1) + 1)%Q;
                            ((2 / 2 - 2 / 2) / (2 * 1) + -1)%Q]) ∧
  (∃ this' mp mv,
     jointToActuatorPosition (built [2; 2] [1; 1] [1; -1])%Q
       front back (cells 2 2) = Ok (this', mp) ∧
     jointToActuatorVelocity (built [2; 2] [1; 1] [1; -1])%Q
       front back (cells (2 - 1) (2 - -1)) = Ok (tt, mv) ∧
     values mp back = values mv back).
Proof.
  destruct (position_maps_follow_velocity_maps 2 2 1 1 1 (-1)
              (built [2; 2] [1; 1] [1; -1])%Q) as (P1 & _ & P2).
  { apply constructed. reflexivity. }
  split.
  - edestruct P1 with (m := cells 2 2) (act := front) (jnt := back)
      (v0 := ((2 / 2 + 2 / 2) / (2 * 1))%Q)
      (v1 := ((2 / 2 - 2 / 2) / (2 * 1))%Q) as (mp & Hrun & Hv & _).
    + vm_compute. reflexivity.
    + reflexivity.
    + exact back_nodup.
    + exists mp. split; assumption.
  - apply (P2 (cells 2 2) (cells (2 - 1) (2 - -1)) front back front
             2 2 0 0 0 0)%Q.
    + reflexivity.
    + reflexivity.
    + reflexivity.
    + reflexivity.
    + exact back_front.
Defined.

(** ** Construction *)

(** C7. The constructor throws a [TransmissionException] exactly when one of
    the three vectors does not have two elements or one of the reductions is
    zero. It then returns no object; otherwise it returns the object with the
    three vectors as members. The values of the offsets play no part: in
    particular zero offsets are accepted. *)
Theorem construction_fails_iff (ar jr jo : list Q) :
  ((∃ what, new ar jr jo = Raise (TransmissionException what)) ↔
   misconfigured ar jr jo) ∧
  ((∃ this, new ar jr jo = Ok this) ↔ ¬ misconfigured ar jr jo) ∧
  (∀ this, new ar jr jo = Ok this → this = built ar jr jo) ∧
  (¬ misconfigured ar jr (replicate 2 0%Q) →
   new ar jr default_joint_offset = Ok (built ar jr [0; 0]%Q)).
Proof.
  assert (Hbad : misconfigured ar jr jo →
                 ∃ what, new ar jr jo = Raise (TransmissionException what)).
  { unfold misconfigured, new.
    destruct ar as [|ar0 [|ar1 [|]]], jr as [|jr0 [|jr1 [|]]],
      jo as [|o0 [|o1 [|]]]; cbn; eauto.
    intros [?|[?|[?|H]]]; [done..|].
    rewrite !Exists_cons, Exists_nil in H.
    assert (Qeq_bool 0 ar0 || Qeq_bool 0 ar1 || Qeq_bool 0 jr0
            || Qeq_bool 0 jr1 = true) as ->; [|cbn; eauto].
    rewrite !orb_true_iff, !Qeq_bool_iff.
    destruct H as [H|[H|[H|[H|[]]]]]; symmetry in H; tauto. }
  assert (Hgood : ¬ misconfigured ar jr jo →
                  new ar jr jo = Ok (built ar jr jo)).
  { unfold misconfigured, new. intros H.
    destruct ar as [|ar0 [|ar1 [|]]], jr as [|jr0 [|jr1 [|]]],
      jo as [|o0 [|o1 [|]]]; cbn in *; try (exfalso; apply H; lia).
    destruct (Qeq_bool 0 ar0 || Qeq_bool 0 ar1 || Qeq_bool 0 jr0
              || Qeq_bool 0 jr1) eqn:E; [|done].
    exfalso. apply H. do 3 right.
    rewrite !orb_true_iff, !Qeq_bool_iff in E.
    rewrite !Exists_cons.
    destruct E as [[[E|E]|E]|E]; symmetry in E; tauto. }
  assert (Hdec : misconfigured ar jr jo ∨ ¬ misconfigured ar jr jo).
  { unfold misconfigured.
    destruct (decide (length ar = 2%nat)), (decide (length jr = 2%nat)),
      (decide (length jo = 2%nat)); try tauto.
    destruct (decide (Exists (λ r, r == 0)%Q (ar ++ jr))); tauto. }
  repeat split.
  - intros [what E]. destruct Hdec as [|Hn]; [done|].
    rewrite (Hgood Hn) in E. done.
  - done.
  - intros [this E] Hb. destruct (Hbad Hb) as [what E']. congruence.
  - intros Hn. eauto.
  - intros this E. destruct Hdec as [Hb|Hn].
    + destruct (Hbad Hb) as [what E']. congruence.
    + rewrite (Hgood Hn) in E. congruence.
  - clear. intros Hn. unfold new, misconfigured in *.
    destruct ar as [|ar0 [|ar1 [|]]], jr as [|jr0 [|jr1 [|]]];
      cbn in *; try (exfalso; apply Hn; lia).
    destruct (Qeq_bool 0 ar0 || Qeq_bool 0 ar1 || Qeq_bool 0 jr0
              || Qeq_bool 0 jr1) eqn:E; [|done].
    exfalso. apply Hn. do 3 right.
    rewrite !orb_true_iff, !Qeq_bool_iff in E.
    rewrite !Exists_cons.
    destruct E as [[[E|E]|E]|E]; symmetry in E; tauto.
Qed.

Example new_size_three :
  new [1; 2; 3]%Q [1; 1]%Q [0; 0]%Q = Raise size_error.
Proof. reflexivity. Qed.

Example new_zero_ratio :
  new [1; 2]%Q [0; 1]%Q [0; 0]%Q = Raise zero_error.
Proof. reflexivity. Qed.

Example new_zero_offsets :
  new [1; 2]%Q [3; 1]%Q default_joint_offset = Ok (built [1; 2] [3; 1] [0; 0])%Q.
Proof. reflexivity. Qed.

(** ** The workspace of [jointToActuatorPosition] *)

(** C8. When none of the joint-position slots handed to
    [jointToActuatorPosition] is one of the actuator-position slots, the call
    returns and the joint-position slots hold what they held before: the
    offsets are subtracted in the two locals only. *)
Theorem jointToActuatorPosition_keeps_inputs
  (ar0 ar1 jr0 jr1 off0 off1 : Q) (this : DifferentialTransmission)
  (m : mem) (joint_pos actuator_pos : list ptr) (x0 x1 y0 y1 : Q) :
  is_instance [ar0; ar1] [jr0; jr1] [off0; off1] this →
  values m joint_pos = Some [x0; x1] →
  values m actuator_pos = Some [y0; y1] →
  joint_pos ## actuator_pos →
  ∃ this' m',
    jointToActuatorPosition this joint_pos actuator_pos m = Ok (this', m') ∧
    values m' joint_pos = Some [x0; x1].
Proof.
  intros [Hp _]%is_instance_params Hin Hout Hsep. slots.
  eexists _, _. split.
  - by eapply jointToActuatorPosition_run.
  - written.
Qed.

Lemma jointToActuatorPosition_keeps_inputs_witness :
  ∃ this' m',
    jointToActuatorPosition (built [2; 2] [1; 1] [1; -1])%Q
      front back (cells 2 (-1)) = Ok (this', m') ∧
    values m' front = Some [2; -1]%Q.
Proof.
  apply (jointToActuatorPosition_keeps_inputs 2 2 1 1 1 (-1) _
           (cells 2 (-1)) front back 2 (-1) 0 0).
  - apply constructed. reflexivity.
  - reflexivity.
  - reflexivity.
  - exact front_back.
Defined.

(** Without the separation the inputs are overwritten: converting in place
    leaves the actuator positions in the slots that held the joint
    positions. *)
Example jointToActuatorPosition_in_place :
  ∃ this' m',
    jointToActuatorPosition (built [2; 2] [1; 1] [1; -1])%Q
      front front (cells 2 (-1)) = Ok (this', m') ∧
    values m' front = Some [((2 - 1) * 1 + (-1 - -1) * 1) * 2;
                            ((2 - 1) * 1 - (-1 - -1) * 1) * 2]%Q.
Proof. eexists _, _. split; [vm_compute|]; reflexivity. Qed.

(** ** The scenario of the specification *)

(** C9. With actuator reductions [2], [2], joint reductions [1], [1] and zero
    offsets, [actuatorToJointVelocity] takes the actuator velocities [2], [2]
    to the joint velocities [1], [0], and [jointToActuatorVelocity] takes
    [1], [0] back to [2], [2]. *)
Theorem velocity_scenario
  (this : DifferentialTransmission) (m m' : mem) (act jnt : list ptr)
  (y0 y1 z0 z1 : Q) :
  is_instance [2; 2]%Q [1; 1]%Q [0; 0]%Q this →
  holds m act [2; 2]%Q → values m jnt = Some [y0; y1] →
  holds m' jnt [1; 0]%Q → values m' act = Some [z0; z1] →
  NoDup act → NoDup jnt → jnt ## act →
  (∃ m1, actuatorToJointVelocity this act jnt m = Ok (tt, m1) ∧
         holds m1 jnt [1; 0]%Q) ∧
  (∃ m2, jointToActuatorVelocity this jnt act m' = Ok (tt, m2) ∧
         holds m2 act [2; 2]%Q).
Proof.
  intros [Hp _]%is_instance_params
    (a0 & a1 & Hact & Ea0 & Ea1)%holds_pair Hjnt
    (j0 & j1 & Hjnt' & Ej0 & Ej1)%holds_pair Hact' Hnda Hndj Hsep.
  assert (Hsep' : act ## jnt) by (intros p ??; by eapply Hsep).
  destruct (actuatorToJointVelocity_spec _ _ _ _ _ _ _ Hp _ _ _ _ _ _ _
              Hact Hjnt Hndj Hsep) as (m1 & Hrun1 & Hv1 & _).
  destruct (jointToActuatorVelocity_spec _ _ _ _ _ _ _ Hp _ _ _ _ _ _ _
              Hjnt' Hact' Hnda Hsep') as (m2 & Hrun2 & Hv2 & _).
  split; [exists m1|exists m2]; (split; [done|]);
    apply holds_pair; eexists _, _; (split; [done|]).
  - rewrite Ea0, Ea1. split; reflexivity.
  - rewrite Ej0, Ej1. split; reflexivity.
Qed.

Lemma velocity_scenario_witness :
  (∃ m1, actuatorToJointVelocity (built [2; 2] [1; 1] [0; 0])%Q
           front back (cells 2 2) = Ok (tt, m1) ∧
         holds m1 back [1; 0]%Q) ∧
  (∃ m2, jointToActuatorVelocity (built [2; 2] [1; 1] [0; 0])%Q
           back front (cells4 7 7 1 0) = Ok (tt, m2) ∧
         holds m2 front [2; 2]%Q).
Proof.
  apply (velocity_scenario _ (cells 2 2) (cells4 7 7 1 0) front back
           0 0 7 7).
  - apply constructed. reflexivity.
  - vm_compute. repeat constructor.
  - reflexivity.
  - vm_compute. repeat constructor.
  - reflexivity.
  - exact front_nodup.
  - exact back_nodup.
  - exact back_front.
Defined.

(** ** The offsets and the effort and velocity maps *)

(** C10. Two instances with the same reductions and any offsets give the same
    outcome, memory and failures included, on every call of the four effort
    and velocity conversions. *)
Theorem effort_and_velocity_ignore_offsets
  (ar jr jo jo' : list Q) (this this' : DifferentialTransmission)
  (ins outs : list ptr) (m : mem) :
  is_instance ar jr jo this →
  is_instance ar jr jo' this' →
  actuatorToJointEffort this ins outs m =
    actuatorToJointEffort this' ins outs m ∧
  jointToActuatorEffort this ins outs m =
    jointToActuatorEffort this' ins outs m ∧
  actuatorToJointVelocity this ins outs m =
    actuatorToJointVelocity this' ins outs m ∧
  jointToActuatorVelocity this ins outs m =
    jointToActuatorVelocity this' ins outs m.
Proof.
  intros H H'.
  apply is_instance_inv in H
    as (? & ? & ? & ? & ? & ? & -> & -> & -> & _ & Ha & Hj & _).
  apply is_instance_inv in H'
    as (? & ? & ? & ? & ? & ? & ? & ? & -> & _ & Ha' & Hj' & _).
  simplify_eq.
  unfold actuatorToJointEffort, jointToActuatorEffort,
    actuatorToJointVelocity, jointToActuatorVelocity.
  by rewrite Ha, Hj, Ha', Hj'.
Qed.

Lemma effort_and_velocity_ignore_offsets_witness :
  actuatorToJointEffort (built [2; -3] [5; 7] [0; 0])%Q front back (cells 4 9) =
    actuatorToJointEffort (built [2; -3] [5; 7] [1; -1])%Q front back (cells 4 9) ∧
  jointToActuatorEffort (built [2; -3] [5; 7] [0; 0])%Q front back (cells 4 9) =
    jointToActuatorEffort (built [2; -3] [5; 7] [1; -1])%Q front back (cells 4 9) ∧
  actuatorToJointVelocity (built [2; -3] [5; 7] [0; 0])%Q front back (cells 4 9) =
    actuatorToJointVelocity (built [2; -3] [5; 7] [1; -1])%Q front back (cells 4 9) ∧
  jointToActuatorVelocity (built [2; -3] [5; 7] [0; 0])%Q front back (cells 4 9) =
    jointToActuatorVelocity (built [2; -3] [5; 7] [1; -1])%Q front back (cells 4 9).
Proof.
  apply (effort_and_velocity_ignore_offsets [2; -3] [5; 7] [0; 0] [1; -1])%Q.
  - apply constructed. reflexivity.
  - apply constructed. reflexivity.
Defined.

(** The position maps do read the offsets. *)
Example position_reads_offsets :
  actuatorToJointPosition (built [2; 2] [1; 1] [0; 0])%Q front back (cells 2 2) ≠
  actuatorToJointPosition (built [2; 2] [1; 1] [1; -1])%Q front back (cells 2 2).
Proof.
  intros H.
  apply (f_equal (λ r, match r with
                       | Ok (_, m') => values m' back
                       | Raise _ => None
                       end)) in H.
  vm_compute in H. discriminate H.
Qed.

(** * Further properties of the class *)

(** ** Taking a call apart *)

Lemma bind_inv {A B} (c : M A) (f : A → M B) (m m' : mem) (b : B) :
  (c ≫= f) m = Ok (b, m') → ∃ a m1, c m = Ok (a, m1) ∧ f a m1 = Ok (b, m').
Proof.
  unfold mbind, M_bind. destruct (c m) as [[a m1]|]; [|done]. eauto.
Qed.

Lemma assert_inv (b : bool) (m m' : mem) (u : unit) :
  assert b m = Ok (u, m') → b = true ∧ m' = m.
Proof. destruct b; cbn; [|done]. by intros [= _ ->]. Qed.

Lemma idx_inv {A} (v : list A) (i : nat) (m m' : mem) (x : A) :
  idx v i m = Ok (x, m') → v !! i = Some x ∧ m' = m.
Proof.
  unfold idx, at_. destruct (v !! i); cbn; [|done]. by intros [= -> ->].
Qed.

Lemma load_inv (p : ptr) (m m' : mem) (x : Q) :
  load p m = Ok (x, m') → peek m p = Some x ∧ m' = m.
Proof.
  destruct p as [|a]; cbn; [done|]. destruct (m !! a); [|done].
  by intros [= -> ->].
Qed.

Lemma store_inv (p : ptr) (x : Q) (m m' : mem) (u : unit) :
  store p x m = Ok (u, m') →
  ∃ a, p = Ptr a ∧ is_Some (m !! a) ∧ m' = <[a := x]> m.
Proof.
  destruct p as [|a]; cbn; [done|]. destruct (m !! a) eqn:E; [|done].
  intros [= _ <-]. exists a. by rewrite E.
Qed.

Lemma rd_inv (v : list ptr) (i : nat) (m m' : mem) (x : Q) :
  rd v i m = Ok (x, m') → ∃ p, v !! i = Some p ∧ peek m p = Some x ∧ m' = m.
Proof.
  intros (p & m1 & [Hp ->]%idx_inv & [Hx ->]%load_inv)%bind_inv. eauto.
Qed.

Lemma wr_inv (v : list ptr) (i : nat) (x : Q) (m m' : mem) (u : unit) :
  wr v i x m = Ok (u, m') →
  ∃ a, v !! i = Some (Ptr a) ∧ is_Some (m !! a) ∧ m' = <[a := x]> m.
Proof.
  intros (p & m1 & [Hp ->]%idx_inv & (a & -> & ? & ->)%store_inv)%bind_inv.
  eauto.
Qed.

(** ** Calls change the output slots only *)

Lemma modifies_refl (outs : list ptr) (m : mem) : modifies outs m m.
Proof. by split. Qed.

Lemma modifies_trans (outs : list ptr) (m1 m2 m3 : mem) :
  modifies outs m1 m2 → modifies outs m2 m3 → modifies outs m1 m3.
Proof.
  intros [D1 L1] [D2 L2]. split; [congruence|].
  intros a Ha. by rewrite L2, L1.
Qed.

Lemma modifies_insert (outs : list ptr) (m : mem) (a : addr) (x : Q) :
  Ptr a ∈ outs → is_Some (m !! a) → modifies outs m (<[a := x]> m).
Proof.
  intros Hin Ha. split.
  - by apply dom_insert_lookup_L.
  - intros b Hb. apply lookup_insert_ne. by intros ->.
Qed.

Lemma frames_bind {A B} (outs : list ptr) (c : M A) (f : A → M B) :
  frames outs c → (∀ a, frames outs (f a)) → frames outs (c ≫= f).
Proof.
  intros Hc Hf m b m' (a & m1 & H1 & H2)%bind_inv.
  eapply modifies_trans; [by eapply Hc|by eapply Hf].
Qed.

Lemma frames_assert (outs : list ptr) (b : bool) : frames outs (assert b).
Proof. intros m u m' [_ ->]%assert_inv. apply modifies_refl. Qed.

Lemma frames_idx {A} (outs : list ptr) (v : list A) (i : nat) :
  frames outs (idx v i).
Proof. intros m x m' [_ ->]%idx_inv. apply modifies_refl. Qed.

Lemma frames_rd (outs v : list ptr) (i : nat) : frames outs (rd v i).
Proof. intros m x m' (p & _ & _ & ->)%rd_inv. apply modifies_refl. Qed.

Lemma frames_wr (outs : list ptr) (i : nat) (x : Q) :
  frames outs (wr outs i x).
Proof.
  intros m u m' (a & Hi & Ha & ->)%wr_inv.
  apply modifies_insert; [|done]. by eapply list_elem_of_lookup_2.
Qed.

Ltac frames :=
  repeat first
    [ apply frames_assert | apply frames_idx | apply frames_rd
    | apply frames_wr | apply frames_bind; [|intros ?] ].

Lemma frames_actuatorToJointEffort this ins outs :
  frames outs (actuatorToJointEffort this ins outs).
Proof. unfold actuatorToJointEffort. frames. Qed.

Lemma frames_actuatorToJointVelocity this ins outs :
  frames outs (actuatorToJointVelocity this ins outs).
Proof. unfold actuatorToJointVelocity. frames. Qed.

Lemma frames_jointToActuatorEffort this ins outs :
  frames outs (jointToActuatorEffort this ins outs).
Proof. unfold jointToActuatorEffort. frames. Qed.

Lemma frames_jointToActuatorVelocity this ins outs :
  frames outs (jointToActuatorVelocity this ins outs).
Proof. unfold jointToActuatorVelocity. frames. Qed.

Lemma frames_actuatorToJointPosition this ins outs :
  frames outs (actuatorToJointPosition this ins outs).
Proof.
  unfold actuatorToJointPosition.
  apply frames_bind; [apply frames_assert|intros _].
  apply frames_bind; [apply frames_actuatorToJointVelocity|intros _].
  frames.
Qed.

Lemma assign_inv {A} (v v' : list A) (i : nat) (x : A) (m m' : mem) :
  assign v i x m = Ok (v', m') →
  (i < length v)%nat ∧ v' = <[i := x]> v ∧ m' = m.
Proof. unfold assign. case_decide; [|done]. by intros [= <- <-]. Qed.

Lemma alloca_inv (x : Q) (m m' : mem) (p : ptr) :
  alloca x m = Ok (p, m') →
  p = Ptr (fresh (dom m)) ∧ m' = <[fresh (dom m) := x]> m.
Proof. unfold alloca. by intros [= <- <-]. Qed.

Ltac invert H :=
  repeat first
    [ apply bind_inv in H as (? & ? & ?%assert_inv & H); cbv beta zeta in H
    | apply bind_inv in H as (? & ? & ?%idx_inv & H); cbv beta zeta in H
    | apply bind_inv in H as (? & ? & ?%rd_inv & H); cbv beta zeta in H
    | apply bind_inv in H as (? & ? & ?%wr_inv & H); cbv beta zeta in H
    | apply bind_inv in H as (? & ? & ?%alloca_inv & H); cbv beta zeta in H
    | apply bind_inv in H as (? & ? & ?%assign_inv & H); cbv beta zeta in H
    | apply bind_inv in H as (? & ? & ? & H); cbv beta zeta in H ];
  repeat match goal with
         | E : _ ∧ _ |- _ => destruct E
         | E : ∃ _, _ |- _ => destruct E
         end;
  simplify_eq.

Lemma modifies_locals (outs : list ptr) (m m3 : mem) (w0 w1 : addr) (x0 x1 : Q) :
  m !! w0 = None → m !! w1 = None →
  modifies outs (<[w1 := x1]> (<[w0 := x0]> m)) m3 →
  modifies outs m (delete w0 (delete w1 m3)).
Proof.
  intros Hw0 Hw1 [D L]. split.
  - apply set_eq. intros a. rewrite !elem_of_dom.
    destruct (decide (a = w0)) as [->|]; [by rewrite lookup_delete_eq, Hw0|].
    rewrite lookup_delete_ne by done.
    destruct (decide (a = w1)) as [->|]; [by rewrite lookup_delete_eq, Hw1|].
    rewrite lookup_delete_ne by done.
    rewrite <- !elem_of_dom, D, !dom_insert_L.
    rewrite !elem_of_union, !elem_of_singleton. tauto.
  - intros a Ha.
    destruct (decide (a = w0)) as [->|]; [by rewrite lookup_delete_eq|].
    rewrite lookup_delete_ne by done.
    destruct (decide (a = w1)) as [->|]; [by rewrite lookup_delete_eq|].
    rewrite lookup_delete_ne, L, !lookup_insert_ne by done. done.
Qed.

Lemma fresh_cells (m : mem) (x : Q) :
  m !! fresh (dom m) = None ∧
  m !! fresh (dom (<[fresh (dom m) := x]> m)) = None.
Proof.
  split; [apply not_elem_of_dom, is_fresh|].
  pose proof (is_fresh (dom (<[fresh (dom m) := x]> m))) as H.
  apply not_elem_of_dom, lookup_insert_None in H. tauto.
Qed.

(** [jointToActuatorPosition] allocates its two locals, but they are gone
    when it returns. *)
Lemma frames_jointToActuatorPosition this ins outs :
  frames outs (jointToActuatorPosition this ins outs).
Proof.
  intros m this' m' H. unfold jointToActuatorPosition in H.
  invert H. cbn in *. unfold mret, M_ret in H. simplify_eq.
  match goal with
  | Hv : jointToActuatorVelocity _ _ _ (<[_ := _]> (<[_ := ?x]> _)) = Ok _
    |- _ =>
      apply frames_jointToActuatorVelocity in Hv;
      destruct (fresh_cells m x) as [F0 F1];
      exact (modifies_locals _ _ _ _ _ _ _ F0 F1 Hv)
  end.
Qed.

(** ** How a call can fail *)

Lemma undefined_only_bind {A B} (c : M A) (f : A → M B) :
  undefined_only c →
  (∀ m a m', c m = Ok (a, m') → undefined_only (f a)) →
  undefined_only (c ≫= f).
Proof.
  intros Hc Hf m e. unfold mbind, M_bind.
  destruct (c m) as [[a m1]|e'] eqn:E.
  - by eapply Hf.
  - intros [= <-]. by eapply Hc.
Qed.

Lemma undefined_only_ret {A} (a : A) : undefined_only (mret a).
Proof. by intros m e. Qed.

Lemma undefined_only_idx {A} (v : list A) (i : nat) : undefined_only (idx v i).
Proof.
  intros m e. unfold idx, at_. destruct (v !! i); cbn; congruence.
Qed.

Lemma undefined_only_load (p : ptr) : undefined_only (load p).
Proof.
  intros m e. destruct p as [|a]; cbn; [congruence|].
  destruct (m !! a); congruence.
Qed.

Lemma undefined_only_store (p : ptr) (x : Q) : undefined_only (store p x).
Proof.
  intros m e. destruct p as [|a]; cbn; [congruence|].
  destruct (m !! a); congruence.
Qed.

Lemma undefined_only_rd (v : list ptr) (i : nat) : undefined_only (rd v i).
Proof.
  apply undefined_only_bind; [apply undefined_only_idx|].
  intros. apply undefined_only_load.
Qed.

Lemma undefined_only_wr (v : list ptr) (i : nat) (x : Q) :
  undefined_only (wr v i x).
Proof.
  apply undefined_only_bind; [apply undefined_only_idx|].
  intros. apply undefined_only_store.
Qed.

Lemma undefined_only_assign {A} (v : list A) (i : nat) (x : A) :
  undefined_only (assign v i x).
Proof. intros m e. unfold assign. case_decide; congruence. Qed.

Lemma undefined_only_alloca (x : Q) : undefined_only (alloca x).
Proof. by intros m e. Qed.

Lemma undefined_only_release (p : ptr) : undefined_only (release p).
Proof. intros m e. by destruct p. Qed.

Ltac undefined_only :=
  repeat first
    [ apply undefined_only_ret | apply undefined_only_idx
    | apply undefined_only_rd | apply undefined_only_wr
    | apply undefined_only_alloca | apply undefined_only_release
    | apply undefined_only_assign
    | apply undefined_only_bind; [|intros ? ? ? ?] ].








(** X2. A call of one of the five conversions that do not touch the object
    leaves the memory with the same cells, and with the same contents
    everywhere but in the output slots it was handed, whatever the slots
    are. *)
Theorem conversions_write_outputs_only
  (this : DifferentialTransmission) (ins outs : list ptr) :
  frames outs (actuatorToJointEffort this ins outs) ∧
  frames outs (actuatorToJointVelocity this ins outs) ∧
  frames outs (actuatorToJointPosition this ins outs) ∧
  frames outs (jointToActuatorEffort this ins outs) ∧
  frames outs (jointToActuatorVelocity this ins outs).
Proof.
  split_and!.
  - apply frames_actuatorToJointEffort.
  - apply frames_actuatorToJointVelocity.
  - apply frames_actuatorToJointPosition.
  - apply frames_jointToActuatorEffort.
  - apply frames_jointToActuatorVelocity.
Qed.

(** X3. A call of [jointToActuatorPosition] that returns leaves the memory
    with the cells it had before the call, the two locals being released, and
    with the same contents everywhere but in the actuator slots; the three
    parameter vectors of the object are unchanged. *)
Theorem jointToActuatorPosition_leaves_no_trace
  (this this' : DifferentialTransmission) (joint_pos actuator_pos : list ptr)
  (m m' : mem) :
  jointToActuatorPosition this joint_pos actuator_pos m = Ok (this', m') →
  modifies actuator_pos m m' ∧
  actuator_reduction_ this' = actuator_reduction_ this ∧
  joint_reduction_ this' = joint_reduction_ this ∧
  joint_offset_ this' = joint_offset_ this.
Proof.
  intros H. split; [by eapply frames_jointToActuatorPosition|].
  apply jointToActuatorPosition_members in H. tauto.
Qed.

Lemma jointToActuatorPosition_leaves_no_trace_witness :
  ∃ this' m',
    jointToActuatorPosition (built [2; 2] [1; 1] [1; -1])%Q
      front back (cells 2 (-1)) = Ok (this', m') ∧
    modifies back (cells 2 (-1)) m' ∧
    actuator_reduction_ this' = [2; 2]%Q ∧
    joint_reduction_ this' = [1; 1]%Q ∧
    joint_offset_ this' = [1; -1]%Q.
Proof.
  eexists _, _. split; [vm_compute; reflexivity|].
  eapply (jointToActuatorPosition_leaves_no_trace
            (built [2; 2] [1; 1] [1; -1])%Q _ front back (cells 2 (-1))).
  vm_compute. reflexivity.
Defined.

(** X4. After [jointToActuatorPosition] returns, the two pointers it left in
    [joint_pos_vec_] point to no cell of the memory: they are the addresses
    of the two locals of the call. *)
Theorem jointToActuatorPosition_workspace_dangles
  (this this' : DifferentialTransmission) (joint_pos actuator_pos : list ptr)
  (m m' : mem) :
  jointToActuatorPosition this joint_pos actuator_pos m = Ok (this', m') →
  ∃ w0 w1, joint_pos_vec_ this' = [Ptr w0; Ptr w1] ∧ w0 ≠ w1 ∧
    m !! w0 = None ∧ m !! w1 = None ∧ m' !! w0 = None ∧ m' !! w1 = None.
Proof.
  intros H. unfold jointToActuatorPosition in H.
  invert H. cbn in *. unfold mret, M_ret in H. simplify_eq.
  match goal with
  | Hv : jointToActuatorVelocity _ _ _ (<[_ := _]> (<[_ := ?x]> _)) = Ok _
    |- _ =>
      destruct (fresh_cells m x) as [F0 F1];
      pose proof (is_fresh (dom (<[fresh (dom m) := x]> m))) as F2;
      apply not_elem_of_dom, lookup_insert_None in F2 as [_ F2];
      unfold jointToActuatorVelocity in Hv;
      apply bind_inv in Hv as (? & ? & [E _]%assert_inv & _)
  end.
  apply andb_prop in E as [_ E]. apply Nat.eqb_eq in E.
  cbn [joint_pos_vec_] in E. rewrite !length_insert in E.
  destruct (joint_pos_vec_ this) as [|v0 [|v1 [|]]]; try done.
  eexists _, _. split; [reflexivity|]. split; [done|].
  split; [done|]. split; [done|].
  split; [apply lookup_delete_eq|].
  rewrite lookup_delete_ne by done. apply lookup_delete_eq.
Qed.

Lemma jointToActuatorPosition_workspace_dangles_witness :
  ∃ this' m',
    jointToActuatorPosition (built [2; 2] [1; 1] [1; -1])%Q
      front back (cells 2 (-1)) = Ok (this', m') ∧
    ∃ w0 w1, joint_pos_vec_ this' = [Ptr w0; Ptr w1] ∧ w0 ≠ w1 ∧
      cells 2 (-1) !! w0 = None ∧ cells 2 (-1) !! w1 = None ∧
      m' !! w0 = None ∧ m' !! w1 = None.
Proof.
  eexists _, _. split; [vm_compute; reflexivity|].
  eapply (jointToActuatorPosition_workspace_dangles
            (built [2; 2] [1; 1] [1; -1])%Q _ front back (cells 2 (-1))).
  vm_compute. reflexivity.
Defined.

(** ** Closed forms of the other conversions *)

Section ClosedForms.
Context (ar0 ar1 jr0 jr1 off0 off1 : Q) (this : DifferentialTransmission).
Context (m : mem) (ins outs : list ptr) (x0 x1 y0 y1 : Q).

(** X5. [actuatorToJointEffort] on actuator efforts [x0], [x1] leaves
    [jr0 * (x0*ar0 + x1*ar1)] and [jr1 * (x0*ar0 - x1*ar1)] in the joint
    slots. *)
Theorem actuatorToJointEffort_closed_form :
  is_instance [ar0; ar1] [jr0; jr1] [off0; off1] this →
  values m ins = Some [x0; x1] →
  values m outs = Some [y0; y1] →
  NoDup outs → outs ## ins →
  ∃ m', actuatorToJointEffort this ins outs m = Ok (tt, m') ∧
    values m' outs = Some [(jr0 * (x0 * ar0 + x1 * ar1))%Q;
                           (jr1 * (x0 * ar0 - x1 * ar1))%Q].
Proof.
  intros [Hp _]%is_instance_params Hin Hout Hnd Hsep.
  destruct (actuatorToJointEffort_spec _ _ _ _ _ _ _ Hp _ _ _ _ _ _ _
              Hin Hout Hnd Hsep) as (m' & ? & ? & _).
  by exists m'.
Qed.

(** X6. [actuatorToJointVelocity] on actuator velocities [x0], [x1] leaves
    [(x0/ar0 + x1/ar1) / (2*jr0)] and [(x0/ar0 - x1/ar1) / (2*jr1)] in the
    joint slots. *)
Theorem actuatorToJointVelocity_closed_form :
  is_instance [ar0; ar1] [jr0; jr1] [off0; off1] this →
  values m ins = Some [x0; x1] →
  values m outs = Some [y0; y1] →
  NoDup outs → outs ## ins →
  ∃ m', actuatorToJointVelocity this ins outs m = Ok (tt, m') ∧
    values m' outs = Some [((x0 / ar0 + x1 / ar1) / (2 * jr0))%Q;
                           ((x0 / ar0 - x1 / ar1) / (2 * jr1))%Q].
Proof.
  intros [Hp _]%is_instance_params Hin Hout Hnd Hsep.
  destruct (actuatorToJointVelocity_spec _ _ _ _ _ _ _ Hp _ _ _ _ _ _ _
              Hin Hout Hnd Hsep) as (m' & ? & ? & _).
  by exists m'.
Qed.

(** X7. [jointToActuatorVelocity] on joint velocities [x0], [x1] leaves
    [(x0*jr0 + x1*jr1) * ar0] and [(x0*jr0 - x1*jr1) * ar1] in the actuator
    slots. *)
Theorem jointToActuatorVelocity_closed_form :
  is_instance [ar0; ar1] [jr0; jr1] [off0; off1] this →
  values m ins = Some [x0; x1] →
  values m outs = Some [y0; y1] →
  NoDup outs → outs ## ins →
  ∃ m', jointToActuatorVelocity this ins outs m = Ok (tt, m') ∧
    values m' outs = Some [((x0 * jr0 + x1 * jr1) * ar0)%Q;
                           ((x0 * jr0 - x1 * jr1) * ar1)%Q].
Proof.
  intros [Hp _]%is_instance_params Hin Hout Hnd Hsep.
  destruct (jointToActuatorVelocity_spec _ _ _ _ _ _ _ Hp _ _ _ _ _ _ _
              Hin Hout Hnd Hsep) as (m' & ? & ? & _).
  by exists m'.
Qed.

(** X8. [actuatorToJointPosition] on actuator positions [x0], [x1] leaves
    [(x0/ar0 + x1/ar1) / (2*jr0) + off0] and
    [(x0/ar0 - x1/ar1) / (2*jr1) + off1] in the joint slots: the second
    component is divided by twice the second joint reduction. *)
Theorem actuatorToJointPosition_closed_form :
  is_instance [ar0; ar1] [jr0; jr1] [off0; off1] this →
  values m ins = Some [x0; x1] →
  values m outs = Some [y0; y1] →
  NoDup outs → outs ## ins →
  ∃ m', actuatorToJointPosition this ins outs m = Ok (tt, m') ∧
    values m' outs = Some [((x0 / ar0 + x1 / ar1) / (2 * jr0) + off0)%Q;
                           ((x0 / ar0 - x1 / ar1) / (2 * jr1) + off1)%Q].
Proof.
  intros [Hp _]%is_instance_params Hin Hout Hnd Hsep.
  destruct (actuatorToJointPosition_spec _ _ _ _ _ _ _ Hp _ _ _ _ _ _ _
              Hin Hout Hnd Hsep) as (m' & ? & ? & _).
  by exists m'.
Qed.

(** X9. [jointToActuatorPosition] on joint positions [x0], [x1] leaves
    [((x0-off0)*jr0 + (x1-off1)*jr1) * ar0] and
    [((x0-off0)*jr0 - (x1-off1)*jr1) * ar1] in the actuator slots. The
    actuator slots need only be distinct from each other: they may be the
    joint slots themselves, since the inputs are copied to the locals before
    anything is written. *)
Theorem jointToActuatorPosition_closed_form :
  is_instance [ar0; ar1] [jr0; jr1] [off0; off1] this →
  values m ins = Some [x0; x1] →
  values m outs = Some [y0; y1] →
  NoDup outs →
  ∃ this' m', jointToActuatorPosition this ins outs m = Ok (this', m') ∧
    values m' outs =
      Some [(((x0 - off0) * jr0 + (x1 - off1) * jr1) * ar0)%Q;
            (((x0 - off0) * jr0 - (x1 - off1) * jr1) * ar1)%Q].
Proof.
  intros [Hp _]%is_instance_params Hin Hout Hnd.
  destruct (jointToActuatorPosition_spec _ _ _ _ _ _ _ Hp _ _ _ _ _ _ _
              Hin Hout Hnd) as (this' & m' & ? & ? & _).
  by exists this', m'.
Qed.
End ClosedForms.

Lemma actuatorToJointEffort_closed_form_witness :
  ∃ m', actuatorToJointEffort (built [2; -3] [5; 7] [1; -1])%Q
          front back (cells 4 9) = Ok (tt, m') ∧
    values m' back = Some [(5 * (4 * 2 + 9 * -3))%Q; (7 * (4 * 2 - 9 * -3))%Q].
Proof.
  apply (actuatorToJointEffort_closed_form 2 (-3) 5 7 1 (-1) _ (cells 4 9)
           front back 4 9 0 0).
  - apply constructed. reflexivity.
  - reflexivity.
  - reflexivity.
  - exact back_nodup.
  - exact back_front.
Defined.

Lemma actuatorToJointVelocity_closed_form_witness :
  ∃ m', actuatorToJointVelocity (built [2; -3] [5; 7] [1; -1])%Q
          front back (cells 4 9) = Ok (tt, m') ∧
    values m' back = Some [((4 / 2 + 9 / -3) / (2 * 5))%Q;
                           ((4 / 2 - 9 / -3) / (2 * 7))%Q].
Proof.
  apply (actuatorToJointVelocity_closed_form 2 (-3) 5 7 1 (-1) _ (cells 4 9)
           front back 4 9 0 0).
  - apply constructed. reflexivity.
  - reflexivity.
  - reflexivity.
  - exact back_nodup.
  - exact back_front.
Defined.

Lemma jointToActuatorVelocity_closed_form_witness :
  ∃ m', jointToActuatorVelocity (built [2; -3] [5; 7] [1; -1])%Q
          front back (cells 4 9) = Ok (tt, m') ∧
    values m' back = Some [((4 * 5 + 9 * 7) * 2)%Q; ((4 * 5 - 9 * 7) * -3)%Q].
Proof.
  apply (jointToActuatorVelocity_closed_form 2 (-3) 5 7 1 (-1) _ (cells 4 9)
           front back 4 9 0 0).
  - apply constructed. reflexivity.
  - reflexivity.
  - reflexivity.
  - exact back_nodup.
  - exact back_front.
Defined.

Lemma actuatorToJointPosition_closed_form_witness :
  ∃ m', actuatorToJointPosition (built [2; -3] [5; 7] [1; -1])%Q
          front back (cells 4 9) = Ok (tt, m') ∧
    values m' back = Some [((4 / 2 + 9 / -3) / (2 * 5) + 1)%Q;
                           ((4 / 2 - 9 / -3) / (2 * 7) + -1)%Q].
Proof.
  apply (actuatorToJointPosition_closed_form 2 (-3) 5 7 1 (-1) _ (cells 4 9)
           front back 4 9 0 0).
  - apply constructed. reflexivity.
  - reflexivity.
  - reflexivity.
  - exact back_nodup.
  - exact back_front.
Defined.

(** The witness converts in place. *)
Lemma jointToActuatorPosition_closed_form_witness :
  ∃ this' m', jointToActuatorPosition (built [2; -3] [5; 7] [1; -1])%Q
                front front (cells 4 9) = Ok (this', m') ∧
    values m' front = Some [(((4 - 1) * 5 + (9 - -1) * 7) * 2)%Q;
                            (((4 - 1) * 5 - (9 - -1) * 7) * -3)%Q].
Proof.
  apply (jointToActuatorPosition_closed_form 2 (-3) 5 7 1 (-1) _ (cells 4 9)
           front front 4 9 4 9).
  - apply constructed. reflexivity.
  - reflexivity.
  - reflexivity.
  - exact front_nodup.
Defined.

(** ** Round trips from joint space

    The joint values are read from [jnt], converted into [act], and converted
    back into [jnt'], which may be [jnt] itself or two other slots. *)

Section RoundTripFromJoints.
Context (ar0 ar1 jr0 jr1 off0 off1 : Q) (this : DifferentialTransmission).
Context (m : mem) (jnt act jnt' : list ptr) (x0 x1 y0 y1 z0 z1 : Q).

Local Ltac carry Hfr Hsep :=
  apply values_frame; intros p Hin; apply Hfr; intros Hin';
  exact (Hsep p Hin Hin').

(** X10. Efforts converted to actuator space by [jointToActuatorEffort] and
    back by [actuatorToJointEffort] are the efforts one started from. *)
Theorem effort_round_trip_from_joints :
  is_instance [ar0; ar1] [jr0; jr1] [off0; off1] this →
  values m jnt = Some [x0; x1] →
  values m act = Some [y0; y1] →
  values m jnt' = Some [z0; z1] →
  NoDup act → act ## jnt → NoDup jnt' → jnt' ## act →
  ∃ m1 m2,
    jointToActuatorEffort this jnt act m = Ok (tt, m1) ∧
    actuatorToJointEffort this act jnt' m1 = Ok (tt, m2) ∧
    holds m2 jnt' [x0; x1].
Proof.
  intros [Hp (Ha0 & Ha1 & Hj0 & Hj1)]%is_instance_params
    Hjnt Hact Hjnt' Hnd Hsep Hnd' Hsep'.
  destruct (jointToActuatorEffort_spec _ _ _ _ _ _ _ Hp _ _ _ _ _ _ _
              Hjnt Hact Hnd Hsep) as (m1 & Hrun1 & Hv1 & Hfr1).
  assert (Hjnt1 : values m1 jnt' = Some [z0; z1])
    by (rewrite <- Hjnt'; carry Hfr1 Hsep').
  destruct (actuatorToJointEffort_spec _ _ _ _ _ _ _ Hp _ _ _ _ _ _ _
              Hv1 Hjnt1 Hnd' Hsep') as (m2 & Hrun2 & Hv2 & _).
  exists m1, m2. repeat split; [done..|].
  apply holds_pair. eexists _, _. split; [done|]. split; by field.
Qed.

(** X11. Velocities converted to actuator space by [jointToActuatorVelocity]
    and back by [actuatorToJointVelocity] are the velocities one started
    from. *)
Theorem velocity_round_trip_from_joints :
  is_instance [ar0; ar1] [jr0; jr1] [off0; off1] this →
  values m jnt = Some [x0; x1] →
  values m act = Some [y0; y1] →
  values m jnt' = Some [z0; z1] →
  NoDup act → act ## jnt → NoDup jnt' → jnt' ## act →
  ∃ m1 m2,
    jointToActuatorVelocity this jnt act m = Ok (tt, m1) ∧
    actuatorToJointVelocity this act jnt' m1 = Ok (tt, m2) ∧
    holds m2 jnt' [x0; x1].
Proof.
  intros [Hp (Ha0 & Ha1 & Hj0 & Hj1)]%is_instance_params
    Hjnt Hact Hjnt' Hnd Hsep Hnd' Hsep'.
  destruct (jointToActuatorVelocity_spec _ _ _ _ _ _ _ Hp _ _ _ _ _ _ _
              Hjnt Hact Hnd Hsep) as (m1 & Hrun1 & Hv1 & Hfr1).
  assert (Hjnt1 : values m1 jnt' = Some [z0; z1])
    by (rewrite <- Hjnt'; carry Hfr1 Hsep').
  destruct (actuatorToJointVelocity_spec _ _ _ _ _ _ _ Hp _ _ _ _ _ _ _
              Hv1 Hjnt1 Hnd' Hsep') as (m2 & Hrun2 & Hv2 & _).
  exists m1, m2. repeat split; [done..|].
  apply holds_pair. eexists _, _. split; [done|]. split; by field.
Qed.

End RoundTripFromJoints.

Lemma effort_round_trip_from_joints_witness :
  ∃ m1 m2,
    jointToActuatorEffort (built [2; -3] [5; 7] [1; -1])%Q
      front back (cells 4 9) = Ok (tt, m1) ∧
    actuatorToJointEffort (built [2; -3] [5; 7] [1; -1])%Q
      back front m1 = Ok (tt, m2) ∧
    holds m2 front [4; 9]%Q.
Proof.
  apply (effort_round_trip_from_joints 2 (-3) 5 7 1 (-1) _ (cells 4 9)
           front back front 4 9 0 0 4 9).
  - apply constructed. reflexivity.
  - reflexivity.
  - reflexivity.
  - reflexivity.
  - exact back_nodup.
  - exact back_front.
  - exact front_nodup.
  - exact front_back.
Defined.

Lemma velocity_round_trip_from_joints_witness :
  ∃ m1 m2,
    jointToActuatorVelocity (built [2; -3] [5; 7] [1; -1])%Q
      front back (cells 4 9) = Ok (tt, m1) ∧
    actuatorToJointVelocity (built [2; -3] [5; 7] [1; -1])%Q
      back front m1 = Ok (tt, m2) ∧
    holds m2 front [4; 9]%Q.
Proof.
  apply (velocity_round_trip_from_joints 2 (-3) 5 7 1 (-1) _ (cells 4 9)
           front back front 4 9 0 0 4 9).
  - apply constructed. reflexivity.
  - reflexivity.
  - reflexivity.
  - reflexivity.
  - exact back_nodup.
  - exact back_front.
  - exact front_nodup.
  - exact front_back.
Defined.


(** ** Power *)



(** ** The object between calls *)

(** X14. Whatever calls it has served, an object holds the three vectors it
    was constructed with, each of two elements, no reduction being zero, and
    a workspace of two pointers. *)
Theorem parameters_are_frozen
  (ar jr jo : list Q) (this : DifferentialTransmission) :
  is_instance ar jr jo this →
  actuator_reduction_ this = ar ∧ joint_reduction_ this = jr ∧
  joint_offset_ this = jo ∧
  length ar = 2%nat ∧ length jr = 2%nat ∧ length jo = 2%nat ∧
  Forall (λ r, ¬ r == 0)%Q (ar ++ jr) ∧
  length (joint_pos_vec_ this) = 2%nat.
Proof.
  intros (ar0 & ar1 & jr0 & jr1 & o0 & o1 & -> & -> & -> &
          (? & ? & ? & ?) & Ha & Hj & Ho & Hv)%is_instance_inv.
  repeat split; try done. cbn. by repeat constructor.
Qed.

Lemma parameters_are_frozen_witness :
  ∃ this' m',
    jointToActuatorPosition (built [2; -3] [5; 7] [1; -1])%Q
      front back (cells 4 9) = Ok (this', m') ∧
    actuator_reduction_ this' = [2; -3]%Q ∧ joint_reduction_ this' = [5; 7]%Q ∧
    joint_offset_ this' = [1; -1]%Q ∧
    length [2; -3]%Q = 2%nat ∧ length [5; 7]%Q = 2%nat ∧
    length [1; -1]%Q = 2%nat ∧
    Forall (λ r, ¬ r == 0)%Q ([2; -3] ++ [5; 7])%Q ∧
    length (joint_pos_vec_ this') = 2%nat.
Proof.
  eexists _, _. split; [vm_compute; reflexivity|].
  apply (parameters_are_frozen [2; -3] [5; 7] [1; -1])%Q.
  eapply (used _ _ _ (built [2; -3] [5; 7] [1; -1])%Q front back (cells 4 9)).
  - apply constructed. reflexivity.
  - vm_compute. reflexivity.
Defined.

(** X15. The outcome of a call does not depend on the calls the object has
    served before: two states of one object give the same result, returned
    object included, for each of the six conversions. *)
Theorem conversions_are_history_independent
  (ar jr jo : list Q) (this this' : DifferentialTransmission)
  (ins outs : list ptr) (m : mem) :
  is_instance ar jr jo this →
  is_instance ar jr jo this' →
  actuatorToJointEffort this ins outs m =
    actuatorToJointEffort this' ins outs m ∧
  actuatorToJointVelocity this ins outs m =
    actuatorToJointVelocity this' ins outs m ∧
  actuatorToJointPosition this ins outs m =
    actuatorToJointPosition this' ins outs m ∧
  jointToActuatorEffort this ins outs m =
    jointToActuatorEffort this' ins outs m ∧
  jointToActuatorVelocity this ins outs m =
    jointToActuatorVelocity this' ins outs m ∧
  jointToActuatorPosition this ins outs m =
    jointToActuatorPosition this' ins outs m.
Proof.
  intros H H'.
  apply is_instance_inv in H
    as (? & ? & ? & ? & ? & ? & -> & -> & -> & _ & Ha & Hj & Ho & Hv).
  apply is_instance_inv in H'
    as (? & ? & ? & ? & ? & ? & ? & ? & ? & _ & Ha' & Hj' & Ho' & Hv').
  simplify_eq.
  destruct this as [a j o v], this' as [a' j' o' v']. cbn in *. subst.
  destruct v as [|v0 [|v1 [|]]], v' as [|v0' [|v1' [|]]]; try done.
Qed.

Lemma conversions_are_history_independent_witness :
  ∃ this' m',
    jointToActuatorPosition (built [2; -3] [5; 7] [1; -1])%Q
      front back (cells 4 9) = Ok (this', m') ∧
    this' ≠ (built [2; -3] [5; 7] [1; -1])%Q ∧
    actuatorToJointPosition (built [2; -3] [5; 7] [1; -1])%Q
      back front m' = actuatorToJointPosition this' back front m' ∧
    jointToActuatorPosition (built [2; -3] [5; 7] [1; -1])%Q
      front back m' = jointToActuatorPosition this' front back m'.
Proof.
  eexists _, _. split; [vm_compute; reflexivity|]. split; [discriminate|].
  split.
  - eapply (conversions_are_history_independent [2; -3] [5; 7] [1; -1])%Q.
    + apply constructed. reflexivity.
    + eapply (used _ _ _ (built [2; -3] [5; 7] [1; -1])%Q front back
                (cells 4 9)); [apply constructed; reflexivity|].
      vm_compute. reflexivity.
  - eapply (conversions_are_history_independent [2; -3] [5; 7] [1; -1])%Q.
    + apply constructed. reflexivity.
    + eapply (used _ _ _ (built [2; -3] [5; 7] [1; -1])%Q front back
                (cells 4 9)); [apply constructed; reflexivity|].
      vm_compute. reflexivity.
Defined.

(** ** The constructor's two messages *)

Lemma zero_check (a0 a1 j0 j1 : Q) :
  Qeq_bool 0 a0 || Qeq_bool 0 a1 || Qeq_bool 0 j0 || Qeq_bool 0 j1 = true ↔
  Exists (λ r, r == 0)%Q [a0; a1; j0; j1].
Proof.
  rewrite !orb_true_iff, !Qeq_bool_iff, !Exists_cons, Exists_nil.
  split.
  - intros [[[H|H]|H]|H]; symmetry in H; tauto.
  - intros [H|[H|[H|[H|[]]]]]; symmetry in H; tauto.
Qed.

(** X16. The sizes are checked before the reductions: the constructor throws
    the size message exactly when one of the three vectors does not have two
    elements, and the zero-ratio message exactly when all three have two
    elements and one of the reductions is zero. *)
Theorem construction_error_message (ar jr jo : list Q) :
  (new ar jr jo = Raise size_error ↔
   length ar ≠ 2%nat ∨ length jr ≠ 2%nat ∨ length jo ≠ 2%nat) ∧
  (new ar jr jo = Raise zero_error ↔
   length ar = 2%nat ∧ length jr = 2%nat ∧ length jo = 2%nat ∧
   Exists (λ r, r == 0)%Q (ar ++ jr)).
Proof.
  unfold new.
  destruct ar as [|ar0 [|ar1 [|]]], jr as [|jr0 [|jr1 [|]]],
    jo as [|o0 [|o1 [|]]]; cbn;
    try (split; split; [intros _; lia|done|discriminate|intros; lia]).
  rewrite <- zero_check.
  destruct (_ || _); (split; split; [discriminate|lia|..]); try done.
  intros (_ & _ & _ & ?). done.
Qed.

(** ** The default offsets *)

(** X17. For an object constructed with the default offsets, each position
    conversion leaves in the output slots values equal to those the velocity
    conversion of the same direction leaves there. *)
Theorem default_offsets_position_is_velocity
  (ar0 ar1 jr0 jr1 : Q) (this : DifferentialTransmission)
  (m : mem) (ins outs : list ptr) (x0 x1 y0 y1 : Q) :
  is_instance [ar0; ar1] [jr0; jr1] default_joint_offset this →
  values m ins = Some [x0; x1] →
  values m outs = Some [y0; y1] →
  NoDup outs → outs ## ins →
  (∃ mp mv v0 v1,
     actuatorToJointPosition this ins outs m = Ok (tt, mp) ∧
     actuatorToJointVelocity this ins outs m = Ok (tt, mv) ∧
     values mv outs = Some [v0; v1] ∧ holds mp outs [v0; v1]) ∧
  (∃ this' mp mv v0 v1,
     jointToActuatorPosition this ins outs m = Ok (this', mp) ∧
     jointToActuatorVelocity this ins outs m = Ok (tt, mv) ∧
     values mv outs = Some [v0; v1] ∧ holds mp outs [v0; v1]).
Proof.
  intros Hinst Hin Hout Hnd Hsep.
  destruct (is_instance_params ar0 ar1 jr0 jr1 0 0 this Hinst) as [Hp _].
  destruct (actuatorToJointPosition_spec _ _ _ _ _ _ _ Hp _ _ _ _ _ _ _
              Hin Hout Hnd Hsep) as (mp & Hrp & Hvp & _).
  destruct (actuatorToJointVelocity_spec _ _ _ _ _ _ _ Hp _ _ _ _ _ _ _
              Hin Hout Hnd Hsep) as (mv & Hrv & Hvv & _).
  destruct (jointToActuatorPosition_spec _ _ _ _ _ _ _ Hp _ _ _ _ _ _ _
              Hin Hout Hnd) as (this' & mp' & Hrp' & Hvp' & _).
  destruct (jointToActuatorVelocity_spec _ _ _ _ _ _ _ Hp _ _ _ _ _ _ _
              Hin Hout Hnd Hsep) as (mv' & Hrv' & Hvv' & _).
  split.
  - eexists mp, mv, _, _. split; [done|]. split; [done|]. split; [done|].
    apply holds_pair. eexists _, _. split; [done|]. split; ring.
  - eexists this', mp', mv', _, _.
    split; [done|]. split; [done|]. split; [done|].
    apply holds_pair. eexists _, _. split; [done|]. split; ring.
Qed.

Lemma default_offsets_position_is_velocity_witness :
  (∃ mp mv v0 v1,
     actuatorToJointPosition (built [2; -3] [5; 7] [0; 0])%Q
       front back (cells 4 9) = Ok (tt, mp) ∧
     actuatorToJointVelocity (built [2; -3] [5; 7] [0; 0])%Q
       front back (cells 4 9) = Ok (tt, mv) ∧
     values mv back = Some [v0; v1] ∧ holds mp back [v0; v1]) ∧
  (∃ this' mp mv v0 v1,
     jointToActuatorPosition (built [2; -3] [5; 7] [0; 0])%Q
       front back (cells 4 9) = Ok (this', mp) ∧
     jointToActuatorVelocity (built [2; -3] [5; 7] [0; 0])%Q
       front back (cells 4 9) = Ok (tt, mv) ∧
     values mv back = Some [v0; v1] ∧ holds mp back [v0; v1]).
Proof.
  apply (default_offsets_position_is_velocity 2 (-3) 5 7 _ (cells 4 9)
           front back 4 9 0 0).
  - apply constructed. reflexivity.
  - reflexivity.
  - reflexivity.
  - exact back_nodup.
  - exact back_front.
Defined.

(** ** When a call returns *)

Lemma valid_pair (m : mem) (ps : list ptr) :
  valid m ps ↔ ∃ a0 a1, ps = [Ptr a0; Ptr a1] ∧
                 is_Some (m !! a0) ∧ is_Some (m !! a1).
Proof.
  unfold valid. split.
  - intros (x0 & x1 & (a0 & a1 & -> & H0 & H1)%values_pair).
    exists a0, a1. by rewrite H0, H1.
  - intros (a0 & a1 & -> & [x0 H0] & [x1 H1]).
    exists x0, x1. apply values_pair. by exists a0, a1.
Qed.

(** What a returned statement pair tells about the slots: both inputs were
    read and both outputs written, the second output in the memory the first
    write left. *)
Lemma slots_valid (m : mem) (ins outs : list ptr)
  (p0 p1 : ptr) (x0 x1 z : Q) (a0 a1 : addr) :
  (2 =? length outs)%nat && (2 =? length ins)%nat = true ∨
  (2 =? length ins)%nat && (2 =? length outs)%nat = true →
  ins !! 0%nat = Some p0 → peek m p0 = Some x0 →
  ins !! 1%nat = Some p1 → peek m p1 = Some x1 →
  outs !! 0%nat = Some (Ptr a0) → is_Some (m !! a0) →
  outs !! 1%nat = Some (Ptr a1) → is_Some (<[a0 := z]> m !! a1) →
  valid m ins ∧ valid m outs.
Proof.
  intros Hlen Hi0 Hx0 Hi1 Hx1 Ho0 Ha0 Ho1 Ha1.
  assert (length ins = 2%nat ∧ length outs = 2%nat) as [Li Lo].
  { destruct Hlen as [[E1 E2]%andb_prop|[E1 E2]%andb_prop];
      apply Nat.eqb_eq in E1, E2; done. }
  destruct ins as [|i0 [|i1 [|]]], outs as [|o0 [|o1 [|]]]; try done.
  cbn in *. simplify_eq. split.
  - exists x0, x1. unfold values. cbn. by rewrite Hx0, Hx1.
  - apply valid_pair. exists a0, a1. split; [done|]. split; [done|].
    apply lookup_insert_is_Some in Ha1 as [->|[_ ?]]; done.
Qed.

Section Returns.
Context (this : DifferentialTransmission) (ar0 ar1 jr0 jr1 off0 off1 : Q).
Hypothesis Hp : params this ar0 ar1 jr0 jr1 off0 off1.
Context (m : mem) (ins outs : list ptr).

Local Ltac given :=
  intros (i0 & i1 & -> & [x0 Hi0] & [x1 Hi1])%valid_pair
         (o0 & o1 & -> & [y0 Ho0] & [y1 Ho1])%valid_pair;
  destruct Hp as (Har & Hjr & Hjo & Hvec).

Lemma actuatorToJointEffort_returns :
  valid m ins → valid m outs → returns (actuatorToJointEffort this ins outs m).
Proof. given. unfold actuatorToJointEffort. rewrite Har, Hjr. by exec. Qed.

Lemma actuatorToJointVelocity_returns :
  valid m ins → valid m outs →
  returns (actuatorToJointVelocity this ins outs m).
Proof. given. unfold actuatorToJointVelocity. rewrite Har, Hjr. by exec. Qed.

Lemma jointToActuatorEffort_returns :
  valid m ins → valid m outs → returns (jointToActuatorEffort this ins outs m).
Proof. given. unfold jointToActuatorEffort. rewrite Har, Hjr. by exec. Qed.

Lemma jointToActuatorVelocity_returns :
  valid m ins → valid m outs →
  returns (jointToActuatorVelocity this ins outs m).
Proof. given. unfold jointToActuatorVelocity. rewrite Har, Hjr. by exec. Qed.

Lemma actuatorToJointPosition_returns :
  valid m ins → valid m outs →
  returns (actuatorToJointPosition this ins outs m).
Proof.
  given. unfold actuatorToJointPosition, actuatorToJointVelocity.
  rewrite Har, Hjr, Hjo. by exec.
Qed.

Lemma jointToActuatorPosition_returns :
  valid m ins → valid m outs →
  returns (jointToActuatorPosition this ins outs m).
Proof.
  intros (i0 & i1 & -> & [x0 Hi0] & [x1 Hi1])%valid_pair
         (o0 & o1 & -> & [y0 Ho0] & [y1 Ho1])%valid_pair.
  by erewrite jointToActuatorPosition_run.
Qed.
End Returns.

Ltac unravel :=
  repeat match goal with
         | H : assert _ _ = Ok _ |- _ => apply assert_inv in H
         | H : idx _ _ _ = Ok _ |- _ => apply idx_inv in H
         | H : rd _ _ _ = Ok _ |- _ => apply rd_inv in H
         | H : wr _ _ _ _ = Ok _ |- _ => apply wr_inv in H
         | H : (_ ≫= _) _ = Ok _ |- _ =>
             apply bind_inv in H; cbv beta zeta in H
         | H : _ ∧ _ |- _ => destruct H
         | H : ∃ _, _ |- _ => destruct H
         end;
  simplify_eq.

Lemma actuatorToJointEffort_valid this ins outs m r :
  actuatorToJointEffort this ins outs m = Ok r → valid m ins ∧ valid m outs.
Proof.
  destruct r as [u m']. intros H. unfold actuatorToJointEffort in H.
  unravel. eapply slots_valid; eauto.
Qed.

Lemma actuatorToJointVelocity_valid this ins outs m r :
  actuatorToJointVelocity this ins outs m = Ok r → valid m ins ∧ valid m outs.
Proof.
  destruct r as [u m']. intros H. unfold actuatorToJointVelocity in H.
  unravel. eapply slots_valid; eauto.
Qed.

Lemma jointToActuatorEffort_valid this ins outs m r :
  jointToActuatorEffort this ins outs m = Ok r → valid m ins ∧ valid m outs.
Proof.
  destruct r as [u m']. intros H. unfold jointToActuatorEffort in H.
  unravel. eapply slots_valid; eauto.
Qed.

Lemma jointToActuatorVelocity_valid this ins outs m r :
  jointToActuatorVelocity this ins outs m = Ok r → valid m ins ∧ valid m outs.
Proof.
  destruct r as [u m']. intros H. unfold jointToActuatorVelocity in H.
  unravel. eapply slots_valid; eauto.
Qed.

Lemma actuatorToJointPosition_valid this ins outs m r :
  actuatorToJointPosition this ins outs m = Ok r → valid m ins ∧ valid m outs.
Proof.
  destruct r as [u m']. intros H. unfold actuatorToJointPosition in H.
  apply bind_inv in H as (? & ? & [_ ->]%assert_inv & H).
  apply bind_inv in H as (? & ? & H & _).
  by eapply actuatorToJointVelocity_valid.
Qed.

Lemma returns_Ok {A} (r : result A) : returns r ↔ ∃ a, r = Ok a.
Proof. destruct r; cbn; split; try done; eauto. by intros [? ?]. Qed.

(** X18. For every object, each of the five conversions that do not touch
    the object returns exactly when it is handed two vectors of two valid
    slots each; no separation of the slots is needed for that.
    [jointToActuatorPosition] returns on the same condition. *)
Theorem conversion_returns_iff_slots_valid
  (ar jr jo : list Q) (this : DifferentialTransmission)
  (ins outs : list ptr) (m : mem) :
  is_instance ar jr jo this →
  (returns (actuatorToJointEffort this ins outs m) ↔
   valid m ins ∧ valid m outs) ∧
  (returns (actuatorToJointVelocity this ins outs m) ↔
   valid m ins ∧ valid m outs) ∧
  (returns (actuatorToJointPosition this ins outs m) ↔
   valid m ins ∧ valid m outs) ∧
  (returns (jointToActuatorEffort this ins outs m) ↔
   valid m ins ∧ valid m outs) ∧
  (returns (jointToActuatorVelocity this ins outs m) ↔
   valid m ins ∧ valid m outs) ∧
  (valid m ins ∧ valid m outs →
   returns (jointToActuatorPosition this ins outs m)).
Proof.
  intros (ar0 & ar1 & jr0 & jr1 & o0 & o1 & _ & _ & _ & _ & Hp)%is_instance_inv.
  split_and!; [split; [intros [r E]%returns_Ok|intros [? ?]]..|intros [? ?]].
  - by eapply actuatorToJointEffort_valid.
  - by eapply actuatorToJointEffort_returns.
  - by eapply actuatorToJointVelocity_valid.
  - by eapply actuatorToJointVelocity_returns.
  - by eapply actuatorToJointPosition_valid.
  - by eapply actuatorToJointPosition_returns.
  - by eapply jointToActuatorEffort_valid.
  - by eapply jointToActuatorEffort_returns.
  - by eapply jointToActuatorVelocity_valid.
  - by eapply jointToActuatorVelocity_returns.
  - by eapply jointToActuatorPosition_returns.
Qed.

(** The witness: converting in place returns, a null output slot does not. *)
Lemma conversion_returns_iff_slots_valid_witness :
  returns (actuatorToJointEffort (built [2; -3] [5; 7] [1; -1])%Q
             front front (cells 4 9)) ∧
  ¬ returns (actuatorToJointVelocity (built [2; -3] [5; 7] [1; -1])%Q
               front [Ptr 3; nullptr] (cells 4 9)).
Proof.
  split.
  - destruct (conversion_returns_iff_slots_valid [2; -3] [5; 7] [1; -1]
                (built [2; -3] [5; 7] [1; -1]) front front (cells 4 9))%Q
      as (H & _).
    { apply constructed. reflexivity. }
    apply H. split; exists 4%Q, 9%Q; reflexivity.
  - destruct (conversion_returns_iff_slots_valid [2; -3] [5; 7] [1; -1]
                (built [2; -3] [5; 7] [1; -1]) front [Ptr 3; nullptr]
                (cells 4 9))%Q
      as (_ & H & _).
    { apply constructed. reflexivity. }
    intros Hr. apply H in Hr as [_ (y0 & y1 & Hv)].
    vm_compute in Hv. discriminate Hv.
Defined.

(** ** Differences of positions *)


